(** * A shallow embedding of [blocks.py]: a 3x3x3 polycube packing solver.

    The development follows the source file top-down: the rotation matrices,
    class [Block] with its orientation generator, class [Box] with the
    placement check, class [GameState] and the recursive procedure [solve].

    Modelling decisions.
    - numpy computes in 64-bit integers; the model computes in [Z].  The
      rotations only permute and negate the components of a vector, so the
      two agree on every offset that has no component -2^63 (predicate
      [exact_int64]), and the sums anchor + offset agree for the anchors of
      the box.  A statement whose truth depends on this range carries it as a
      hypothesis.
    - A block has at least one cell, as the pieces of a puzzle have.  On a
      block without cells [coords] has shape (0,) and numpy's matrix product
      in [roll] and [turn] raises ValueError; the model leaves this out, and a
      statement about what [solve] raises assumes candidates with cells.
    - A [Block]'s [coords] is the 3 x n array [np.array(coords).T]; it is
      kept as the list of its n columns, each a vector of [Z^3].
    - The occupancy array [Box.filled] has the fixed shape (3,3,3); it is a
      triple of triples of triples, so that the shape cannot drift.
    - Methods of [Box] mutate [self] and may raise: they live in a small
      state-and-exception monad.  [deepcopy] is a value copy, hence the
      identity on these immutable Rocq values. *)

From stdpp Require Import base tactics option list gmap sets strings pretty.
From Stdlib Require Import ZArith Lia.

#[local] Open Scope Z_scope.
#[local] Set Warnings "-clear-no-such-hyp".

(** ** Vectors and the module-level rotation matrices *)

Definition Vec3 : Type := Z * Z * Z.

(** A 3x3 integer matrix, given by its three rows. *)
Definition Mat3 : Type := Vec3 * Vec3 * Vec3.

Definition Rx : Mat3 := (( 1, 0, 0),
                         ( 0, 0,-1),
                         ( 0, 1, 0)).

Definition Ry : Mat3 := (( 0, 0, 1),
                         ( 0, 1, 0),
                         (-1, 0, 0)).

Definition Rz : Mat3 := (( 0,-1, 0),
                         ( 1, 0, 0),
                         ( 0, 0, 1)).

Definition I3 : Mat3 := ((1, 0, 0), (0, 1, 0), (0, 0, 1)).

Definition dot (u v : Vec3) : Z :=
  let '(a, b, c) := u in let '(x, y, z) := v in a * x + b * y + c * z.

(** [M @ v] for a column vector [v], in [Z]; numpy's 64-bit product is the
    same number unless it wraps around, which for the rotation matrices
    happens only when a component -2^63 is negated. *)
Definition matvec (M : Mat3) (v : Vec3) : Vec3 :=
  let '(r0, r1, r2) := M in (dot r0 v, dot r1 v, dot r2 v).

(** [M @ coords] for a 3 x n array given by its columns. *)
Definition matmul (M : Mat3) (cols : list Vec3) : list Vec3 :=
  map (matvec M) cols.

Definition transpose (M : Mat3) : Mat3 :=
  let '((a, b, c), (d, e, f), (g, h, i)) := M in
  ((a, d, g), (b, e, h), (c, f, i)).

(** [A @ B] for two 3x3 matrices. *)
Definition mat_mul (A B : Mat3) : Mat3 :=
  let '(c0, c1, c2) := transpose B in
  transpose (matvec A c0, matvec A c1, matvec A c2).

Definition det (M : Mat3) : Z :=
  let '((a, b, c), (d, e, f), (g, h, i)) := M in
  a * (e * i - f * h) - b * (d * i - f * g) + c * (d * h - e * g).

Definition orthogonal (M : Mat3) : Prop := mat_mul (transpose M) M = I3.

(** A proper rotation: orthogonal with determinant +1. *)
Definition proper_rotation (M : Mat3) : Prop := orthogonal M ∧ det M = 1.

(** The sum of two vectors, in [Z]; equal to numpy's 64-bit sum of an anchor
    of the box and an offset whenever the sum lies in the box, and out of the
    box exactly when numpy's is. *)
Definition vadd (u v : Vec3) : Vec3 :=
  let '(a, b, c) := u in let '(x, y, z) := v in (a + x, b + y, c + z).

(** ** class Block *)

Record Block : Type := mkBlock {
  coord_len : nat;
  coords : list Vec3;
  origin : Vec3;
  direction : Vec3;
  name : string
}.

(** [Block.__init__(coords, name)] *)
Definition Block_init (cs : list Vec3) (nm : string) : Block :=
  {| coord_len := length cs;
     coords := cs;
     origin := (0, 0, 0);
     direction := (1, 0, 0);
     name := nm |}.

(** [Block.__getitem__(i)]: [self.coords[:, i]], column [i] of [coords].
    With n columns numpy takes an index from 0 to n - 1 as it is and an index
    from -n to -1 as counted from the end; [None] stands for the [IndexError]
    it raises for any other index. *)
Definition Block_getitem (self : Block) (i : Z) : option Vec3 :=
  let n := Z.of_nat (length (coords self)) in
  if (0 <=? i) && (i <? n) then coords self !! Z.to_nat i
  else if (- n <=? i) && (i <? 0) then coords self !! Z.to_nat (i + n)
  else None.

(** [for offset in block]: the block has no [__iter__], so Python iterates
    by calling [__getitem__] with 0, 1, 2, ... until it raises [IndexError]:
    the columns in order. *)
Definition Block_iter (self : Block) : list Vec3 := coords self.

Definition set_origin (self : Block) (origin_coords : Vec3) : Block :=
  {| coord_len := coord_len self; coords := coords self;
     origin := origin_coords;
     direction := direction self; name := name self |}.

(** [roll] and [turn], for a block with at least one cell (on a block
    without cells the matrix product raises ValueError). *)
Definition roll (self : Block) : Block :=
  {| coord_len := coord_len self;
     coords := matmul Rx (coords self);
     origin := origin self;
     direction := matvec Rx (direction self);
     name := name self |}.

Definition turn (self : Block) : Block :=
  {| coord_len := coord_len self;
     coords := matmul Rz (coords self);
     origin := origin self;
     direction := matvec Rz (direction self);
     name := name self |}.

(** *** The generator [Block.rotations]

    A generator instance is a suspended computation.  Its body is kept as
    the sequence of primitive steps that the nested loops execute; a
    suspended instance is the suffix still to be run.  The block itself is
    the mutable object the steps act on. *)

Inductive gen_step : Type := DoRoll | DoTurn | DoYield.

Definition rotations : list gen_step :=
  flat_map (fun _cycle : nat =>
    flat_map (fun _step : nat =>
      [DoRoll; DoYield] ++
      flat_map (fun _i : nat => [DoTurn; DoYield]) (seq 0 3))
      (seq 0 3)
    ++ [DoRoll; DoTurn; DoRoll])
    (seq 0 2).

(** [next(gen)]: run the body up to the next [yield].  Returns the block as
    the steps left it, and either the yielded array with the suspended rest
    of the generator, or [None] when the body ran to its end
    ([StopIteration]). *)
Fixpoint gen_next (gen : list gen_step) (self : Block)
  : Block * option (list Vec3 * list gen_step) :=
  match gen with
  | [] => (self, None)
  | DoRoll :: gen' => gen_next gen' (roll self)
  | DoTurn :: gen' => gen_next gen' (turn self)
  | DoYield :: gen' => (self, Some (coords self, gen'))
  end.

(** [for block_rotation in gen: body], where the body may leave the loop
    early with a value ([return] inside the loop) and does not assign to the
    block.  The result holds the block as the generator left it. *)
Fixpoint for_rotations {R : Type} (gen : list gen_step) (self : Block)
    (body : Block → list Vec3 → option R) : Block * option R :=
  match gen with
  | [] => (self, None)
  | DoRoll :: gen' => for_rotations gen' (roll self) body
  | DoTurn :: gen' => for_rotations gen' (turn self) body
  | DoYield :: gen' =>
      match body self (coords self) with
      | Some r => (self, Some r)
      | None => for_rotations gen' self body
      end
  end.

(** Consuming at most [k] items of a generator instance and then dropping
    it: the yielded arrays and the block afterwards. *)
Fixpoint gen_take (k : nat) (gen : list gen_step) (self : Block)
  : Block * list (list Vec3) :=
  match k with
  | O => (self, [])
  | S k' =>
      match gen_next gen self with
      | (self', None) => (self', [])
      | (self', Some (y, gen')) =>
          let '(self'', ys) := gen_take k' gen' self' in (self'', y :: ys)
      end
  end.

(** A full run: [list(block.rotations())]. *)
Definition gen_all (self : Block) : Block * list (list Vec3) :=
  gen_take (length rotations) rotations self.

(** ** class Box *)

(** A fixed-size axis of length 3, and numpy's indexing on it: an index in
    [0,2] is used as it is, an index in [-3,-1] counts from the end, any
    other index raises [IndexError] ([None]). *)
Definition T3 (A : Type) : Type := A * A * A.

Definition axis_index (i : Z) : option nat :=
  if (0 <=? i) && (i <=? 2) then Some (Z.to_nat i)
  else if (-3 <=? i) && (i <=? -1) then Some (Z.to_nat (i + 3))
  else None.

Definition get3 {A : Type} (t : T3 A) (i : nat) : option A :=
  let '(a, b, c) := t in
  match i with
  | 0%nat => Some a
  | 1%nat => Some b
  | 2%nat => Some c
  | _ => None
  end.

Definition upd3 {A : Type} (t : T3 A) (i : nat) (f : A → A) : T3 A :=
  let '(a, b, c) := t in
  match i with
  | 0%nat => (f a, b, c)
  | 1%nat => (a, f b, c)
  | 2%nat => (a, b, f c)
  | _ => t
  end.

Definition list3 {A : Type} (t : T3 A) : list A :=
  let '(a, b, c) := t in [a; b; c].

(** The array of shape (3,3,3). *)
Definition Grid : Type := T3 (T3 (T3 Z)).

Definition zeros : Grid :=
  let row : T3 Z := (0, 0, 0) in
  let plane : T3 (T3 Z) := (row, row, row) in
  (plane, plane, plane).

(** [g[i, j, k]] *)
Definition grid_get (g : Grid) (c : Vec3) : option Z :=
  let '(i, j, k) := c in
  i' ← axis_index i; j' ← axis_index j; k' ← axis_index k;
  plane ← get3 g i'; row ← get3 plane j'; get3 row k'.

(** [g[i, j, k] = v] *)
Definition grid_set (g : Grid) (c : Vec3) (v : Z) : option Grid :=
  let '(i, j, k) := c in
  i' ← axis_index i; j' ← axis_index j; k' ← axis_index k;
  Some (upd3 g i' (λ plane, upd3 plane j' (λ row, upd3 row k' (λ _, v)))).

(** All 27 entries, in row-major order. *)
Definition grid_entries (g : Grid) : list Z :=
  plane ← list3 g; row ← list3 plane; list3 row.

Record Box : Type := mkBox { filled : Grid }.

(** [Box.__init__] *)
Definition Box_init : Box := {| filled := zeros |}.

(** Python truth value of an integer. *)
Definition truthy (v : Z) : bool := negb (v =? 0).

(** [(self.filled == 1).all()] *)
Definition is_filled (self : Box) : bool :=
  forallb (λ v, v =? 1) (grid_entries (filled self)).

(** [np.sum(self.filled)] *)
Definition num_filled (self : Box) : Z :=
  foldr Z.add 0 (grid_entries (filled self)).

(** The two [IndexError]s the source raises, told apart by their message,
    and the one numpy raises itself for an index outside the array. *)
Inductive IndexError : Type :=
  | OutOfBounds    (* IndexError('Block placement is out of bounds.') *)
  | AlreadyFilled  (* IndexError('Space is already filled.') *)
  | ArrayIndex     (* numpy: index is out of bounds for axis *)
  | PopFromEmpty.  (* list.pop: pop from empty list *)

(** [self.filled[i, j, k]] *)
Definition coord_is_filled (self : Box) (i j k : Z) : IndexError + Z :=
  match grid_get (filled self) (i, j, k) with
  | Some v => inr v
  | None => inl ArrayIndex
  end.

(** *** The state-and-exception monad of the [Box] methods

    A method call [self.m(block, origin)] runs in a frame holding the two
    objects it can reach, [self] and [block], and the index of the sequence
    iterator that drives the running [for offset in block] loop (Python
    creates that iterator and advances it once per item fetched).  A raised
    exception keeps the frame as it was when it was raised. *)

Record Frame : Type := mkFrame {
  self_box : Box;
  arg_block : Block;
  iter_index : nat
}.

Definition M (A : Type) : Type := Frame → Frame * (IndexError + A).

#[global] Instance M_ret : MRet M := λ A a fr, (fr, inr a).

#[global] Instance M_bind : MBind M := λ A B k m fr,
  match m fr with
  | (fr', inr a) => k a fr'
  | (fr', inl e) => (fr', inl e)
  end.

Definition raise {A : Type} (e : IndexError) : M A := λ fr, (fr, inl e).

Definition get_block : M Block := λ fr, (fr, inr (arg_block fr)).

(** [self.filled[tuple(c)]] *)
Definition read_filled (c : Vec3) : M Z :=
  λ fr, match grid_get (filled (self_box fr)) c with
        | Some v => (fr, inr v)
        | None => (fr, inl ArrayIndex)
        end.

(** [self.filled[tuple(c)] = v] *)
Definition write_filled (c : Vec3) (v : Z) : M unit :=
  λ fr, match grid_set (filled (self_box fr)) c v with
        | Some g => ({| self_box := {| filled := g |};
                        arg_block := arg_block fr;
                        iter_index := iter_index fr |}, inr tt)
        | None => (fr, inl ArrayIndex)
        end.

Definition iter_reset : M unit :=
  λ fr, ({| self_box := self_box fr; arg_block := arg_block fr;
            iter_index := 0 |}, inr tt).

Definition iter_advance : M unit :=
  λ fr, ({| self_box := self_box fr; arg_block := arg_block fr;
            iter_index := S (iter_index fr) |}, inr tt).

Fixpoint for_items (items : list Vec3) (body : Vec3 → M unit) : M unit :=
  match items with
  | [] => mret tt
  | x :: items' => iter_advance;; body x;; for_items items' body
  end.

(** [for offset in block: body] *)
Definition for_offset_in_block (body : Vec3 → M unit) : M unit :=
  block ← get_block;
  iter_reset;;
  for_items (Block_iter block) body.

(** [(cube_coord < 0).any() or (cube_coord > 2).any()] *)
Definition out_of_bounds (cube_coord : Vec3) : bool :=
  let '(x, y, z) := cube_coord in
  ((x <? 0) || (y <? 0) || (z <? 0)) || ((2 <? x) || (2 <? y) || (2 <? z)).

Definition validate_placement (origin : Vec3) : M unit :=
  for_offset_in_block (λ offset,
    let cube_coord := vadd origin offset in
    if out_of_bounds cube_coord then raise OutOfBounds
    else
      v ← read_filled cube_coord;
      if truthy v then raise AlreadyFilled else mret tt).

Definition place (origin : Vec3) : M unit :=
  validate_placement origin;;
  for_offset_in_block (λ offset,
    let cube_coord := vadd origin offset in
    write_filled cube_coord 1).

(** A call [box.m(block, origin)] from outside: the objects afterwards and
    the outcome. *)
Definition call {A : Type} (m : M A) (box : Box) (block : Block)
  : Frame * (IndexError + A) :=
  m {| self_box := box; arg_block := block; iter_index := 0 |}.

(** ** class GameState *)

Record GameState : Type := mkGame {
  block_candidates : list Block;
  placed_blocks : list Block;
  box : Box
}.

(** [GameState.__init__(block_list)] *)
Definition GameState_init (block_list : list (list Vec3)) : GameState :=
  {| block_candidates :=
       imap (λ i b, Block_init b ("B" +:+ pretty i)) block_list;
     placed_blocks := [];
     box := Box_init |}.

Definition is_solved (self : GameState) : bool := is_filled (box self).

(** ** solve *)

(** [l.pop()]: the last item and the list without it; [None] on the empty
    list, where Python raises [IndexError]. *)
Definition pop {A : Type} (l : list A) : option (list A * A) :=
  match reverse l with
  | [] => None
  | x :: r => Some (reverse r, x)
  end.

(** What one iteration of a loop body does to the loop: go on with the next
    item, leave the function with [return], or raise. *)
Inductive Flow (S R : Type) : Type :=
  | Next (s : S)
  | Return (r : R)
  | Raised (e : IndexError).
Arguments Next {S R} s.
Arguments Return {S R} r.
Arguments Raised {S R} e.

(** [for x in items: body], threading the local state [s]. *)
Fixpoint for_in {A S R : Type} (items : list A) (s : S)
    (body : A → S → Flow S R) : Flow S R :=
  match items with
  | [] => Next s
  | x :: items' =>
      match body x s with
      | Next s' => for_in items' s' body
      | Return r => Return r
      | Raised e => Raised e
      end
  end.

(** [range(3)] *)
Definition range3 : list Z := [0; 1; 2].

(** What a call of [solve] leaves behind: the object it was given, as the
    call left it, and the object it returned.  When [solve] returns its
    argument the two are the same object. *)
Record Outcome : Type := mkOutcome {
  input_after : GameState;
  returned : GameState
}.

(** The body of the innermost loop of [solve], from [deepcopy(game)] to the
    end of the [try] statement: [Some r] when it executes [return r], [None]
    when the loop goes on.  [rec] is the recursive call. *)
Definition attempt (rec : GameState → IndexError + Outcome)
    (game : GameState) (ijk : Vec3) (placement_block : Block)
  : option GameState :=
  let game_copy := game in
  let placement_block_copy := placement_block in
  match call (place ijk) (box game_copy) placement_block_copy with
  | (_, inl _) => None
  | (fr, inr _) =>
      let game_copy :=
        {| block_candidates := block_candidates game_copy;
           placed_blocks := placed_blocks game_copy ++ [arg_block fr];
           box := self_box fr |} in
      match rec game_copy with
      | inl _ => None
      | inr out =>
          let game_copy := returned out in
          if is_solved game_copy then Some game_copy else None
      end
  end.

(** The three nested loops over [i], [j], [k]; the local state threaded
    through them is the object [placement_block]. *)
Definition search (rec : GameState → IndexError + Outcome)
    (game : GameState) (placement_block : Block) : Flow Block GameState :=
  for_in range3 placement_block (λ i placement_block,
    for_in range3 placement_block (λ j placement_block,
      for_in range3 placement_block (λ k placement_block,
        match coord_is_filled (box game) i j k with
        | inl e => Raised e
        | inr v =>
            if truthy v then Next placement_block
            else
              let placement_block := set_origin placement_block (i, j, k) in
              match for_rotations rotations placement_block
                      (λ blk _, attempt rec game (i, j, k) blk) with
              | (_, Some r) => Return r
              | (placement_block, None) => Next placement_block
              end
        end))).

Definition solve_body (rec : GameState → IndexError + Outcome)
    (game : GameState) : IndexError + Outcome :=
  if negb (is_solved game)
     && bool_decide (0 < length (block_candidates game))%nat
  then
    match pop (block_candidates game) with
    | None => inl PopFromEmpty
    | Some (rest, placement_block) =>
        let game := {| block_candidates := rest;
                       placed_blocks := placed_blocks game;
                       box := box game |} in
        match search rec game placement_block with
        | Next _ => inr {| input_after := game; returned := game |}
        | Return r => inr {| input_after := game; returned := r |}
        | Raised e => inl e
        end
    end
  else inr {| input_after := game; returned := game |}.

(** Every recursive call is on a state with one candidate less, so the
    number of candidates bounds the depth of the recursion.  The fuel is
    that number: when it is used up the queue is empty, and [solve] returns
    its argument.  Lemma [solve_unfold] below shows that [solve] satisfies
    the recursive equation of the source. *)
Fixpoint solve_fuel (fuel : nat) (game : GameState) : IndexError + Outcome :=
  match fuel with
  | O => inr {| input_after := game; returned := game |}
  | S fuel' => solve_body (solve_fuel fuel') game
  end.

Definition solve (game : GameState) : IndexError + Outcome :=
  solve_fuel (length (block_candidates game)) game.

(** The puzzle of the source file. *)
Definition B1 : list Vec3 := [(0,0,0); (1,0,0); (2,0,0); (2,1,0)].
Definition B2 : list Vec3 := [(0,0,0); (1,0,0); (2,0,0); (1,1,0)].
Definition B3 : list Vec3 := [(0,0,0); (1,0,0); (0,1,0); (0,1,1)].
Definition B4 : list Vec3 := [(0,0,0); (1,0,0); (2,0,0); (1,1,0); (1,1,1)].
Definition B5 : list Vec3 := [(0,0,0); (1,0,0); (1,1,0); (1,0,1); (2,0,1)].
Definition B6 : list Vec3 := [(0,0,0); (1,0,0); (2,0,0); (1,1,0); (2,0,1)].
Definition block_list : list (list Vec3) := [B1; B2; B3; B4; B5; B6].

(** * Notions used to state the properties *)

(** The block whose offsets and direction are those of [b] transformed by
    [M]; [roll] and [turn] are the instances for [Rx] and [Rz]. *)
Definition rotate_by (M : Mat3) (b : Block) : Block :=
  {| coord_len := coord_len b;
     coords := matmul M (coords b);
     origin := origin b;
     direction := matvec M (direction b);
     name := name b |}.

(** The image of a vector under the linear map of a matrix, written out:
    coordinate i of the image is row i of the matrix times the vector. *)
Definition linear_image (Y : Mat3) (v : Vec3) : Vec3 :=
  let '(a, b, c, (d, e, f), (g, h, i)) := Y in
  let '(x, y, z) := v in
  (a * x + b * y + c * z, d * x + e * y + f * z, g * x + h * y + i * z).

(** The vectors on which numpy's 64-bit rotations are exact: every
    component is a 64-bit integer other than -2^63, the one value whose
    negation wraps around. *)
Definition exact_int64 (v : Vec3) : Prop :=
  let '(x, y, z) := v in
  (- 2 ^ 63 < x < 2 ^ 63) ∧ (- 2 ^ 63 < y < 2 ^ 63) ∧ (- 2 ^ 63 < z < 2 ^ 63).

(** The cumulative matrix at each [yield] of a generator started with
    cumulative matrix [M], and the cumulative matrix when it is exhausted. *)
Fixpoint yield_matrices (gen : list gen_step) (M : Mat3) : list Mat3 :=
  match gen with
  | [] => []
  | DoRoll :: gen' => yield_matrices gen' (mat_mul Rx M)
  | DoTurn :: gen' => yield_matrices gen' (mat_mul Rz M)
  | DoYield :: gen' => M :: yield_matrices gen' M
  end.

Fixpoint final_matrix (gen : list gen_step) (M : Mat3) : Mat3 :=
  match gen with
  | [] => M
  | DoRoll :: gen' => final_matrix gen' (mat_mul Rx M)
  | DoTurn :: gen' => final_matrix gen' (mat_mul Rz M)
  | DoYield :: gen' => final_matrix gen' M
  end.

(** The cumulative rotations of one run of [Block.rotations]. *)
Definition rotation_matrices : list Mat3 := yield_matrices rotations I3.

(** The first matrix of a list at which the loop body returns. *)
Fixpoint first_return {R : Type} (body : Block → list Vec3 → option R)
    (b : Block) (Ms : list Mat3) : option (Mat3 * R) :=
  match Ms with
  | [] => None
  | Y :: Ms' =>
      match body (rotate_by Y b) (coords (rotate_by Y b)) with
      | Some r => Some (Y, r)
      | None => first_return body b Ms'
      end
  end.

(** The part of a generator after its next [yield]. *)
Fixpoint after_yield (gen : list gen_step) : list gen_step :=
  match gen with
  | [] => []
  | DoYield :: gen' => gen'
  | _ :: gen' => after_yield gen'
  end.

Definition vec_eqb (u v : Vec3) : bool :=
  let '(a, b, c) := u in let '(x, y, z) := v in
  (a =? x) && (b =? y) && (c =? z).

Definition mat_eqb (A B : Mat3) : bool :=
  let '(a0, a1, a2) := A in let '(b0, b1, b2) := B in
  vec_eqb a0 b0 && vec_eqb a1 b1 && vec_eqb a2 b2.

Fixpoint distinctb (Ms : list Mat3) : bool :=
  match Ms with
  | [] => true
  | M :: Ms' => negb (existsb (mat_eqb M) Ms') && distinctb Ms'
  end.

(** The 27 cells of the box, in raster order. *)
Definition anchors : list Vec3 :=
  i ← range3; j ← range3; k ← range3; [(i, j, k)].

Definition in_bounds (c : Vec3) : Prop := out_of_bounds c = false.

(** The cell is inside the box and its entry is truthy. *)
Definition occupied (self : Box) (c : Vec3) : Prop :=
  in_bounds c ∧ ∃ v, grid_get (filled self) c = Some v ∧ truthy v = true.

(** The absolute cells of a block put at [anchor], in the block's order. *)
Definition cells_at (anchor : Vec3) (b : Block) : list Vec3 :=
  map (vadd anchor) (Block_iter b).

(** What the body of the validation loop does for one cell: [None] when it
    falls through to the next iteration, otherwise the exception raised. *)
Definition check_cell (self : Box) (cube_coord : Vec3) : option IndexError :=
  if out_of_bounds cube_coord then Some OutOfBounds
  else match grid_get (filled self) cube_coord with
       | Some v => if truthy v then Some AlreadyFilled else None
       | None => Some ArrayIndex
       end.

(** The position and the exception of the first cell at which the
    validation loop raises. *)
Fixpoint first_offence (self : Box) (cells : list Vec3)
  : option (nat * IndexError) :=
  match cells with
  | [] => None
  | c :: cells' =>
      match check_cell self c with
      | Some e => Some (0%nat, e)
      | None => prod_map S id <$> first_offence self cells'
      end
  end.

Definition with_iter_index (fr : Frame) (n : nat) : Frame :=
  {| self_box := self_box fr; arg_block := arg_block fr; iter_index := n |}.

(** [g'] is [g] with the cells of the list set to 1. *)
Definition marks (g : Grid) (cells : list Vec3) (g' : Grid) : Prop :=
  ∀ c, in_bounds c →
    grid_get g' c = if decide (c ∈ cells) then Some 1 else grid_get g c.

(** A box with the single cell (0,0,0) filled. *)
Definition corner_box : Box :=
  self_box (call (place (0, 0, 0)) Box_init (Block_init [(0, 0, 0)] "B0")).1.

(** The boxes that successful placements produce from the empty box. *)
Inductive placed_from_empty : Box → Prop :=
  | pfe_init : placed_from_empty Box_init
  | pfe_place (self : Box) (block : Block) (origin : Vec3) (fr : Frame) :
      placed_from_empty self →
      call (place origin) self block = (fr, inr tt) →
      placed_from_empty (self_box fr).

(** Every entry is 0 or 1. *)
Definition binary (g : Grid) : Prop :=
  Forall (λ v, v = 0 ∨ v = 1) (grid_entries g).

(** The query [coord_is_filled(i, j, k)] returns a truthy value. *)
Definition reports_occupied (self : Box) (c : Vec3) : Prop :=
  let '(i, j, k) := c in
  ∃ v, coord_is_filled self i j k = inr v ∧ truthy v = true.

Definition entry (g : Grid) (c : Vec3) : Z := default 0 (grid_get g c).

(** The block when a fresh generator instance has yielded item number [k]
    (counted from 0). *)
Definition orientation (k : nat) (b : Block) : Block :=
  (gen_take (S k) rotations b).1.

(** The state after [game.block_candidates.pop()]. *)
Definition popped (game : GameState) (rest : list Block) : GameState :=
  {| block_candidates := rest;
     placed_blocks := placed_blocks game;
     box := box game |}.

(** One iteration of the innermost of the three loops of [solve]. *)
Definition anchor_step (rec : GameState → IndexError + Outcome)
    (game : GameState) (ijk : Vec3) (placement_block : Block)
  : Flow Block GameState :=
  let '(i, j, k) := ijk in
  match coord_is_filled (box game) i j k with
  | inl e => Raised e
  | inr v =>
      if truthy v then Next placement_block
      else
        let placement_block := set_origin placement_block (i, j, k) in
        match for_rotations rotations placement_block
                (λ blk _, attempt rec game (i, j, k) blk) with
        | (_, Some r) => Return r
        | (placement_block, None) => Next placement_block
        end
  end.

(** Two blocks that differ in their [origin] at most. *)
Definition same_shape (b pb : Block) : Prop :=
  set_origin b (0, 0, 0) = set_origin pb (0, 0, 0).

(** No attempt of this level of [solve] returns: at every free cell, each
    of the 24 orientations of the selected piece either cannot be placed or
    leads to a recursive result that is not solved. *)
Definition no_attempt_returns (game : GameState) (pb : Block) : Prop :=
  Forall (λ ijk,
      reports_occupied (box game) ijk
      ∨ Forall (λ k, attempt solve game ijk
                       (orientation k (set_origin pb ijk)) = None)
               (seq 0 24)) anchors.

(** The check of [no_attempt_returns], as a computation. *)
Definition no_attempt_returnsb (game : GameState) (pb : Block) : bool :=
  forallb (λ ijk,
    forallb (λ k,
      match attempt solve game ijk (orientation k (set_origin pb ijk)) with
      | None => true
      | Some _ => false
      end) (seq 0 24)) anchors.

(** The smallest game: one piece made of a single cell. *)
Definition unit_piece : Block := Block_init [(0, 0, 0)] "B0".
Definition unit_game : GameState := GameState_init [[(0, 0, 0)]].

(** The set of filled cells of a box. *)
Definition filled_cells (self : Box) : gset Vec3 :=
  list_to_set (filter (λ c, truthy (entry (filled self) c) = true) anchors).

(** The absolute cells of a placed block: its anchor plus its offsets. *)
Definition abs_cells (b : Block) : gset Vec3 :=
  list_to_set (cells_at (origin b) b).

Definition pairwise_disjoint (bs : list Block) : Prop :=
  ∀ i j bi bj, i ≠ j → bs !! i = Some bi → bs !! j = Some bj →
               abs_cells bi ## abs_cells bj.

(** The search states that [solve] works on, starting from a state with an
    empty box and nothing placed: the state after the selected piece was
    popped, and the copy on which an orientation of the selected piece was
    placed at a free cell (the argument of the recursive call). *)
Inductive reachable : GameState → Prop :=
  | reach_init (candidates : list Block) :
      reachable {| block_candidates := candidates;
                   placed_blocks := [];
                   box := Box_init |}
  | reach_pop (game : GameState) (rest : list Block) (pb : Block) :
      reachable game →
      is_solved game = false →
      block_candidates game = rest ++ [pb] →
      reachable (popped game rest)
  | reach_place (game : GameState) (rest : list Block) (pb : Block)
        (ijk : Vec3) (k : nat) (fr : Frame) :
      reachable game →
      is_solved game = false →
      block_candidates game = rest ++ [pb] →
      ijk ∈ anchors →
      ¬ reports_occupied (box game) ijk →
      (k < 24)%nat →
      call (place ijk) (box game) (orientation k (set_origin pb ijk))
        = (fr, inr tt) →
      reachable {| block_candidates := rest;
                   placed_blocks := placed_blocks game ++ [arg_block fr];
                   box := self_box fr |}.

(** * Further functions of the source, and notions for their properties *)

(** [np.sum((c1 - c2)**2)], in [Z]; numpy's 64-bit value is the same for
    cells of the box, and may differ by a multiple of 2^64 for cells that are
    2^31 or more apart. *)
Definition sq_dist (c1 c2 : Vec3) : Z :=
  let '(a, b, c) := c1 in let '(x, y, z) := c2 in
  (a - x) * (a - x) + (b - y) * (b - y) + (c - z) * (c - z).

(** The six directions along the axes. *)
Definition axis_directions : list Vec3 :=
  [(1, 0, 0); (-1, 0, 0); (0, 1, 0); (0, -1, 0); (0, 0, 1); (0, 0, -1)].

(** How often a vector occurs in a list. *)
Definition occurrences (d : Vec3) (ds : list Vec3) : nat :=
  length (List.filter (vec_eqb d) ds).

(** The table of squared distances between the cells of an offset array,
    row by row. *)
Definition pairwise_sq_dists (cols : list Vec3) : list Z :=
  u ← cols; v ← cols; [sq_dist u v].

(** A solution exists for the fixed order of the pieces: the box is filled,
    or the last candidate can be placed, in one of its 24 orientations, at a
    free cell so that a solution exists for the state that results. *)
Inductive solvable : GameState → Prop :=
  | solvable_filled (game : GameState) :
      is_solved game = true → solvable game
  | solvable_place (game : GameState) (rest : list Block) (pb : Block)
        (ijk : Vec3) (k : nat) (fr : Frame) :
      is_solved game = false →
      block_candidates game = rest ++ [pb] →
      ijk ∈ anchors →
      ¬ reports_occupied (box game) ijk →
      (k < 24)%nat →
      call (place ijk) (box game) (orientation k (set_origin pb ijk))
        = (fr, inr tt) →
      solvable {| block_candidates := rest;
                  placed_blocks := placed_blocks game ++ [arg_block fr];
                  box := self_box fr |} →
      solvable game.

(** [blk] is the piece [pb] in one of the 24 orientations, anchored at a
    cell of the box. *)
Definition oriented_copy (pb blk : Block) : Prop :=
  ∃ ijk k, ijk ∈ anchors ∧ (k < 24)%nat
           ∧ blk = orientation k (set_origin pb ijk).

(** The outcome of a call that did not raise. *)
Definition outcome_or (game : GameState) (r : IndexError + Outcome)
  : Outcome :=
  match r with
  | inr out => out
  | inl _ => {| input_after := game; returned := game |}
  end.

(** What [solve] leaves behind on the puzzle of the source file. *)
Definition puzzle_outcome : Outcome :=
  outcome_or (GameState_init block_list) (solve (GameState_init block_list)).

(** ** plot_solution

    The calls into the plotting library are output; the function is embedded
    as the list of these calls, in order, each with the arguments that the
    source computes for it. *)
Inductive Draw : Type :=
  | Figure                                       (* plt.figure() *)
  | Axes3d                                       (* plt.axes(projection='3d') *)
  | Title (s : string)                           (* plt.title(s) *)
  | Scatter (xs ys zs : list Z) (color : string) (* ax.scatter(.., s=200, alpha=1) *)
  | Plot3D (xs ys zs : Z * Z) (color : string)   (* ax.plot3D(.., lw=10) *)
  | ShowPlot.                                    (* plt.show() *)

(** The two nested loops over the cells of a placed block: the pairs of
    absolute cells between which a line is drawn. *)
Definition block_segments (b : Block) : list (Vec3 * Vec3) :=
  cube1 ← Block_iter b; cube2 ← Block_iter b;
  let c1 := vadd cube1 (origin b) in
  let c2 := vadd cube2 (origin b) in
  if sq_dist c1 c2 =? 1 then [(c1, c2)] else [].

(** One iteration of the loop over the placed blocks. *)
Definition plot_block (c : nat) (b : Block) : list Draw :=
  let coords := map (λ v, vadd v (origin b)) (coords b) in
  let color := "C" +:+ pretty c in
  Scatter (map (λ v, v.1.1) coords) (map (λ v, v.1.2) coords)
          (map (λ v, v.2) coords) color
  :: map (λ '(c1, c2),
            Plot3D (c1.1.1, c2.1.1) (c1.1.2, c2.1.2) (c1.2, c2.2) color)
         (block_segments b).

Definition plot_solution (game : GameState) : list Draw :=
  [Figure; Axes3d; Title "Cube solution"]
  ++ mjoin (imap plot_block (placed_blocks game))
  ++ [ShowPlot].

(** Every cell of every placed block lies in the box, as it does in the
    states that [solve] builds. *)
Definition placed_in_box (game : GameState) : Prop :=
  Forall (λ b, Forall in_bounds (cells_at (origin b) b)) (placed_blocks game).

(** Two cells that share a face: they differ by one in one coordinate and
    agree in the other two. *)
Definition face_adjacent (c1 c2 : Vec3) : Prop :=
  let '(a, b, c) := c1 in let '(x, y, z) := c2 in
  Z.abs (a - x) + Z.abs (b - y) + Z.abs (c - z) = 1.

(** The cross product. *)
Definition cross (u v : Vec3) : Vec3 :=
  let '(a, b, c) := u in let '(x, y, z) := v in
  (b * z - c * y, c * x - a * z, a * y - b * x).

(** As [solvable], with the piece placed at any cell of the box, free or
    not. *)
Inductive solvable_anywhere : GameState → Prop :=
  | anywhere_filled (game : GameState) :
      is_solved game = true → solvable_anywhere game
  | anywhere_place (game : GameState) (rest : list Block) (pb : Block)
        (ijk : Vec3) (k : nat) (fr : Frame) :
      is_solved game = false →
      block_candidates game = rest ++ [pb] →
      ijk ∈ anchors →
      (k < 24)%nat →
      call (place ijk) (box game) (orientation k (set_origin pb ijk))
        = (fr, inr tt) →
      solvable_anywhere
        {| block_candidates := rest;
           placed_blocks := placed_blocks game ++ [arg_block fr];
           box := self_box fr |} →
      solvable_anywhere game.

(** The blocks that the constructor and the methods [set_origin], [roll]
    and [turn] produce; [roll] and [turn] return only on a block with at
    least one cell. *)
Inductive built : Block → Prop :=
  | built_init (cs : list Vec3) (nm : string) : built (Block_init cs nm)
  | built_set_origin (b : Block) (o : Vec3) : built b → built (set_origin b o)
  | built_roll (b : Block) : built b → coords b ≠ [] → built (roll b)
  | built_turn (b : Block) : built b → coords b ≠ [] → built (turn b).

(** * Properties *)

(** ** Linear algebra of the rotations *)

Ltac destruct_vec v :=
  let a := fresh "a" in let b := fresh "b" in let c := fresh "c" in
  destruct v as [[a b] c].

Ltac destruct_mat M :=
  let r0 := fresh "r" in let r1 := fresh "r" in let r2 := fresh "r" in
  destruct M as [[r0 r1] r2];
  destruct_vec r0; destruct_vec r1; destruct_vec r2.

Lemma Block_iter_getitem (b : Block) (i : nat) :
  Block_iter b !! i = Block_getitem b (Z.of_nat i).
Proof.
  unfold Block_iter, Block_getitem. cbn zeta.
  destruct (Z.leb_spec 0 (Z.of_nat i)); [|lia]. cbn [andb].
  destruct (Z.ltb_spec (Z.of_nat i) (Z.of_nat (length (coords b)))).
  - by rewrite Nat2Z.id.
  - destruct (Z.ltb_spec (Z.of_nat i) 0); [lia|]. rewrite andb_false_r.
    apply lookup_ge_None. lia.
Qed.

Lemma vec_eq (a b c x y z : Z) :
  a = x → b = y → c = z → (a, b, c) = (x, y, z).
Proof. congruence. Qed.

Lemma matvec_mat_mul (A B : Mat3) (v : Vec3) :
  matvec (mat_mul A B) v = matvec A (matvec B v).
Proof.
  destruct_mat A; destruct_mat B; destruct_vec v.
  cbn. apply vec_eq; ring.
Qed.

Lemma matvec_I3 (v : Vec3) : matvec I3 v = v.
Proof. destruct_vec v. cbn. apply vec_eq; ring. Qed.

Lemma matvec_zero (M : Mat3) : matvec M (0, 0, 0) = (0, 0, 0).
Proof. destruct_mat M. cbn. apply vec_eq; ring. Qed.

Lemma matmul_mat_mul (A B : Mat3) (cols : list Vec3) :
  matmul (mat_mul A B) cols = matmul A (matmul B cols).
Proof.
  unfold matmul. rewrite map_map. apply map_ext. intros v.
  apply matvec_mat_mul.
Qed.

Lemma matmul_I3 (cols : list Vec3) : matmul I3 cols = cols.
Proof.
  unfold matmul. rewrite <- (map_id cols) at 2. apply map_ext, matvec_I3.
Qed.

Lemma rotate_by_I3 (b : Block) : rotate_by I3 b = b.
Proof.
  destruct b. unfold rotate_by. cbn [coords direction coord_len origin name].
  by rewrite matmul_I3, matvec_I3.
Qed.

Lemma rotate_by_mul (A B : Mat3) (b : Block) :
  rotate_by A (rotate_by B b) = rotate_by (mat_mul A B) b.
Proof.
  unfold rotate_by. cbn [coords direction coord_len origin name].
  by rewrite matmul_mat_mul, matvec_mat_mul.
Qed.

Lemma roll_rotate (M : Mat3) (b : Block) :
  roll (rotate_by M b) = rotate_by (mat_mul Rx M) b.
Proof. apply (rotate_by_mul Rx M b). Qed.

Lemma turn_rotate (M : Mat3) (b : Block) :
  turn (rotate_by M b) = rotate_by (mat_mul Rz M) b.
Proof. apply (rotate_by_mul Rz M b). Qed.

Lemma origin_rotate_by (M : Mat3) (b : Block) :
  origin (rotate_by M b) = origin b.
Proof. reflexivity. Qed.

Lemma coords_rotate_by (M : Mat3) (b : Block) :
  coords (rotate_by M b) = matmul M (coords b).
Proof. reflexivity. Qed.

(** ** The generator on cumulative matrices *)

(** The loop over a generator, seen on the cumulative matrices: the body is
    run at the yields in order until it returns; an exhausted generator
    leaves the block rotated by the final matrix. *)
Lemma for_rotations_rotate {R : Type} (gen : list gen_step) (M : Mat3)
    (b : Block) (body : Block → list Vec3 → option R) :
  for_rotations gen (rotate_by M b) body =
    match first_return body b (yield_matrices gen M) with
    | Some (Y, r) => (rotate_by Y b, Some r)
    | None => (rotate_by (final_matrix gen M) b, None)
    end.
Proof.
  revert M. induction gen as [|[] gen IH]; intros M; cbn.
  - done.
  - rewrite roll_rotate. apply IH.
  - rewrite turn_rotate. apply IH.
  - destruct (body _ _); [done|]. apply IH.
Qed.

Lemma gen_next_rotate (gen : list gen_step) (M : Mat3) (b : Block) :
  gen_next gen (rotate_by M b) =
    match yield_matrices gen M with
    | [] => (rotate_by (final_matrix gen M) b, None)
    | Y :: _ => (rotate_by Y b, Some (matmul Y (coords b), after_yield gen))
    end.
Proof.
  revert M. induction gen as [|[] gen IH]; intros M; cbn.
  - done.
  - rewrite roll_rotate. apply IH.
  - rewrite turn_rotate. apply IH.
  - done.
Qed.

Lemma yield_matrices_after (gen : list gen_step) (M Y : Mat3) (Ys : list Mat3) :
  yield_matrices gen M = Y :: Ys →
  yield_matrices (after_yield gen) Y = Ys
  ∧ final_matrix (after_yield gen) Y = final_matrix gen M.
Proof.
  revert M. induction gen as [|[] gen IH]; intros M; cbn; intros H.
  - done.
  - eapply IH, H.
  - eapply IH, H.
  - by inversion H; subst.
Qed.

(** Taking [k] items, on the cumulative matrices. *)
Lemma gen_take_rotate (k : nat) (gen : list gen_step) (M : Mat3) (b : Block) :
  gen_take k gen (rotate_by M b) =
    (rotate_by (if decide (k ≤ length (yield_matrices gen M))%nat
                then default M (last (take k (yield_matrices gen M)))
                else final_matrix gen M) b,
     map (λ Y, matmul Y (coords b)) (take k (yield_matrices gen M))).
Proof.
  revert gen M. induction k as [|k IH]; intros gen M.
  - cbn. rewrite decide_True by lia. by rewrite take_0.
  - cbn [gen_take]. rewrite gen_next_rotate.
    destruct (yield_matrices gen M) as [|Y Ys] eqn:EY.
    + cbn. done.
    + destruct (yield_matrices_after _ _ _ _ EY) as [HYs Hfin].
      rewrite IH, HYs, Hfin. cbn [length take map].
      f_equal. f_equal.
      destruct (decide (k ≤ length Ys)%nat).
      * rewrite decide_True by lia.
        destruct (take k Ys) as [|Z Zs] eqn:ET; [done|].
        rewrite last_cons_cons.
        by destruct (proj2 (last_is_Some (Z :: Zs)) ltac:(done)) as [W ->].
      * by rewrite decide_False by lia.
Qed.

Lemma rotation_matrices_length : length rotation_matrices = 24%nat.
Proof. reflexivity. Qed.

Lemma final_matrix_rotations : final_matrix rotations I3 = I3.
Proof. reflexivity. Qed.

(** ** The 24 rotations *)

Lemma vec_eqb_eq (u v : Vec3) : vec_eqb u v = true ↔ u = v.
Proof.
  destruct_vec u; destruct_vec v. unfold vec_eqb.
  rewrite !andb_true_iff, !Z.eqb_eq.
  split; [by intros [[-> ->] ->] | by intros [= -> -> ->]].
Qed.

Lemma mat_eqb_eq (A B : Mat3) : mat_eqb A B = true ↔ A = B.
Proof.
  destruct A as [[a0 a1] a2], B as [[b0 b1] b2]. unfold mat_eqb.
  rewrite !andb_true_iff, !vec_eqb_eq.
  split; [by intros [[-> ->] ->] | by intros [= -> -> ->]].
Qed.

Lemma existsb_mat_eqb (M : Mat3) (Ms : list Mat3) :
  existsb (mat_eqb M) Ms = true ↔ M ∈ Ms.
Proof.
  rewrite existsb_exists. split.
  - intros (N & HN & E). apply mat_eqb_eq in E as ->. by apply list_elem_of_In.
  - intros H. exists M. split; [by apply list_elem_of_In | by apply mat_eqb_eq].
Qed.

Lemma distinctb_NoDup (Ms : list Mat3) : distinctb Ms = true → NoDup Ms.
Proof.
  induction Ms as [|M Ms IH]; cbn; [constructor|].
  rewrite andb_true_iff, negb_true_iff. intros [Hnot Hrest].
  constructor; [|by apply IH].
  rewrite <- existsb_mat_eqb. by rewrite Hnot.
Qed.

Lemma rotation_matrices_NoDup : NoDup rotation_matrices.
Proof. apply distinctb_NoDup. by vm_compute. Qed.

Ltac eval_rotation_matrices :=
  let l := eval vm_compute in rotation_matrices in
  change rotation_matrices with l in *.

Lemma rotation_matrices_proper : Forall proper_rotation rotation_matrices.
Proof.
  eval_rotation_matrices.
  repeat (apply Forall_cons_2; [split; reflexivity|]).
  apply Forall_nil_2.
Qed.

Lemma unit_vector_entries (a b c : Z) :
  a * a + b * b + c * c = 1 →
  (a = -1 ∨ a = 0 ∨ a = 1) ∧ (b = -1 ∨ b = 0 ∨ b = 1)
  ∧ (c = -1 ∨ c = 0 ∨ c = 1).
Proof. intros H. repeat split; nia. Qed.

Ltac split_column H :=
  let Ha := fresh in let Hb := fresh in let Hc := fresh in
  destruct (unit_vector_entries _ _ _ H) as (Ha & Hb & Hc);
  destruct Ha as [->|[->| ->]]; destruct Hb as [->|[->| ->]];
  destruct Hc as [->|[->| ->]]; try lia.

(** Every integer matrix that is orthogonal with determinant +1 is one of
    the matrices the generator visits. *)
Lemma rotation_matrices_complete (M : Mat3) :
  proper_rotation M → M ∈ rotation_matrices.
Proof.
  intros [Horth Hdet]. destruct_mat M.
  unfold orthogonal in Horth. cbn in Horth, Hdet.
  injection Horth as E1 E2 E3 E4 E5 E6 E7 E8 E9.
  split_column E1; split_column E5; split_column E9;
    apply existsb_mat_eqb; by vm_compute.
Qed.

Lemma gen_all_yields (b : Block) :
  (gen_all b).2 = map (λ Y, matmul Y (coords b)) rotation_matrices.
Proof.
  unfold gen_all. rewrite <- (rotate_by_I3 b) at 1.
  rewrite gen_take_rotate. cbn [snd].
  fold rotation_matrices. by rewrite take_ge by (vm_compute; lia).
Qed.

Example rotations_first_item :
  head (gen_all (Block_init B1 "B1")).2
  = Some [(0, 0, 0); (1, 0, 0); (2, 0, 0); (2, 0, 1)].
Proof. reflexivity. Qed.

Lemma matmul_linear_image (Y : Mat3) (cols : list Vec3) :
  matmul Y cols = map (linear_image Y) cols.
Proof.
  unfold matmul. apply map_ext. intros v. destruct_mat Y. by destruct_vec v.
Qed.

Lemma gen_all_images (b : Block) :
  (gen_all b).2
  = map (λ Y, map (linear_image Y) (coords b)) rotation_matrices.
Proof.
  rewrite gen_all_yields. apply map_ext. intros Y. apply matmul_linear_image.
Qed.

(** Claim C4.  One full run of the orientation generator on a block, whose
    offsets are in the range where the 64-bit arithmetic is exact, yields 24
    arrays; the i-th one consists of the images of the block's offsets under
    the linear map of the i-th cumulative rotation matrix; these 24 matrices
    are orthogonal integer matrices of determinant +1, they are pairwise
    different, and every orthogonal integer matrix of determinant +1 is among
    them, so that the image of the offsets under every proper rotation is
    among the yields. *)
Theorem rotations_visit_rotation_group (b : Block) :
  Forall exact_int64 (coords b) →
  (gen_all b).2
  = map (λ Y, map (linear_image Y) (coords b)) rotation_matrices
  ∧ length (gen_all b).2 = 24%nat
  ∧ Forall proper_rotation rotation_matrices
  ∧ NoDup rotation_matrices
  ∧ (∀ M : Mat3, proper_rotation M → M ∈ rotation_matrices)
  ∧ (∀ M : Mat3, proper_rotation M →
       map (linear_image M) (coords b) ∈ (gen_all b).2).
Proof.
  intros _. pose proof (gen_all_images b) as E.
  split; [exact E|]. split.
  { by rewrite E, length_map. }
  split; [apply rotation_matrices_proper|].
  split; [apply rotation_matrices_NoDup|].
  split; [apply rotation_matrices_complete|].
  intros M HM. rewrite E. apply list_elem_of_fmap. exists M.
  split; [done|]. by apply rotation_matrices_complete.
Qed.

(** Claim C4 at a concrete input: piece [B1]. *)
Lemma rotations_visit_rotation_group_witness :
  let b := Block_init B1 "B1" in
  (gen_all b).2
  = map (λ Y, map (linear_image Y) (coords b)) rotation_matrices
  ∧ length (gen_all b).2 = 24%nat
  ∧ Forall proper_rotation rotation_matrices
  ∧ NoDup rotation_matrices
  ∧ (∀ M : Mat3, proper_rotation M → M ∈ rotation_matrices)
  ∧ (∀ M : Mat3, proper_rotation M →
       map (linear_image M) (coords b) ∈ (gen_all b).2).
Proof.
  cbn zeta. apply (rotations_visit_rotation_group (Block_init B1 "B1")).
  repeat (apply Forall_cons_2; [unfold exact_int64; lia|]).
  apply Forall_nil_2.
Defined.

(** ** The generator rotates the block in place *)

Lemma gen_all_restores (b : Block) : (gen_all b).1 = b.
Proof.
  unfold gen_all. rewrite <- (rotate_by_I3 b) at 1.
  rewrite gen_take_rotate. cbn [fst].
  rewrite decide_False by (vm_compute; lia).
  by rewrite final_matrix_rotations, rotate_by_I3.
Qed.

Lemma gen_take_last (k : nat) (b : Block) :
  (1 ≤ k ≤ 24)%nat →
  last (gen_take k rotations b).2 = Some (coords (gen_take k rotations b).1).
Proof.
  intros Hk. rewrite <- (rotate_by_I3 b).
  rewrite gen_take_rotate. cbn [fst snd]. fold rotation_matrices.
  rewrite decide_True by (rewrite rotation_matrices_length; lia).
  rewrite fmap_last.
  destruct (last (take k rotation_matrices)) as [Y|] eqn:EL; [done|].
  apply last_None in EL.
  apply (f_equal length) in EL. rewrite length_take in EL.
  rewrite rotation_matrices_length in EL. cbn in EL. lia.
Qed.

Lemma gen_take_image (k : nat) (Y : Mat3) (b : Block) :
  rotation_matrices !! k = Some Y →
  (gen_take (S k) rotations b).1 = rotate_by Y b.
Proof.
  intros HY. pose proof (lookup_lt_Some _ _ _ HY) as Hk.
  rewrite <- (rotate_by_I3 b) at 1.
  rewrite gen_take_rotate. cbn [fst]. fold rotation_matrices.
  rewrite decide_True by lia.
  rewrite last_lookup, length_take, Nat.min_l by lia.
  cbn [pred]. rewrite lookup_take_lt by lia. by rewrite HY.
Qed.

Lemma rotation_matrices_identity_at (k : nat) (Y : Mat3) :
  rotation_matrices !! k = Some Y → Y = I3 ↔ k = 11%nat.
Proof.
  intros HY.
  assert (H11 : rotation_matrices !! 11%nat = Some I3) by reflexivity.
  split.
  - intros ->.
    eapply NoDup_lookup; [apply rotation_matrices_NoDup|exact HY|exact H11].
  - intros ->. congruence.
Qed.

(** Claim C2, as the code has it.  The generator works on the block itself.
    For a block whose offsets are in the range where the 64-bit arithmetic is
    exact: once k items (1 <= k <= 24) of a run have been consumed, the
    block's own offset array is the orientation yielded last, that is, the
    images of the offsets it had before the run under the k-th cumulative
    rotation, which is the identity exactly for k = 12; a generator started
    on the block at that point yields the 24 rotations of that array.  After
    12 items, and after a run that is consumed to exhaustion, the block,
    offsets and direction included, is as it was before the run. *)
Theorem rotations_mutate_in_place (b : Block) :
  Forall exact_int64 (coords b) →
  (gen_all b).1 = b
  ∧ (gen_take 12 rotations b).1 = b
  ∧ Forall2 (λ k Y,
        let run := gen_take k rotations b in
        last run.2 = Some (coords run.1)
        ∧ coords run.1 = map (linear_image Y) (coords b)
        ∧ (Y = I3 ↔ k = 12%nat)
        ∧ (gen_all run.1).2
          = map (λ Y', map (linear_image Y') (coords run.1))
                rotation_matrices)
      (seq 1 24) rotation_matrices.
Proof.
  intros _. split; [apply gen_all_restores|]. split.
  { rewrite (gen_take_image 11 I3 b) by reflexivity. apply rotate_by_I3. }
  apply Forall2_same_length_lookup. split.
  { by rewrite length_seq, rotation_matrices_length. }
  intros i k Y Hk HY. apply lookup_seq in Hk as [-> Hi]. cbn zeta.
  change (1 + i)%nat with (S i).
  split; [apply gen_take_last; lia|].
  rewrite (gen_take_image i Y b HY).
  split; [apply matmul_linear_image|]. split.
  - rewrite (rotation_matrices_identity_at i Y HY). lia.
  - apply gen_all_images.
Qed.

(** Claim C2, as the code has it, at a concrete input: piece [B1]. *)
Lemma rotations_mutate_in_place_witness :
  let b := Block_init B1 "B1" in
  (gen_all b).1 = b
  ∧ (gen_take 12 rotations b).1 = b
  ∧ Forall2 (λ k Y,
        let run := gen_take k rotations b in
        last run.2 = Some (coords run.1)
        ∧ coords run.1 = map (linear_image Y) (coords b)
        ∧ (Y = I3 ↔ k = 12%nat)
        ∧ (gen_all run.1).2
          = map (λ Y', map (linear_image Y') (coords run.1))
                rotation_matrices)
      (seq 1 24) rotation_matrices.
Proof.
  cbn zeta. apply (rotations_mutate_in_place (Block_init B1 "B1")).
  repeat (apply Forall_cons_2; [unfold exact_int64; lia|]).
  apply Forall_nil_2.
Defined.

(** Claim C2 fails as stated: after one item of a run on piece [B1] has
    been consumed, the piece's offset array is no longer the canonical one,
    and a second generator instance started then yields something else than
    the first one did. *)
Lemma rotations_leak_counterexample :
  let b := Block_init B1 "B1" in
  let b' := (gen_take 1 rotations b).1 in
  coords b' ≠ coords b
  ∧ (gen_take 1 rotations b').2 ≠ (gen_take 1 rotations b).2.
Proof. split; intros H; vm_compute in H; discriminate H. Qed.

(** ** The occupancy array *)

Lemma in_bounds_iff (x y z : Z) :
  in_bounds (x, y, z) ↔ (0 ≤ x ≤ 2) ∧ (0 ≤ y ≤ 2) ∧ (0 ≤ z ≤ 2).
Proof.
  unfold in_bounds, out_of_bounds.
  rewrite !orb_false_iff, !Z.ltb_ge. lia.
Qed.

Lemma in_bounds_anchors (c : Vec3) : in_bounds c ↔ c ∈ anchors.
Proof.
  destruct c as [[x y] z]. rewrite in_bounds_iff. split.
  - intros (Hx & Hy & Hz).
    assert (Ex : x = 0 ∨ x = 1 ∨ x = 2) by lia.
    assert (Ey : y = 0 ∨ y = 1 ∨ y = 2) by lia.
    assert (Ez : z = 0 ∨ z = 1 ∨ z = 2) by lia.
    destruct Ex as [->|[->| ->]], Ey as [->|[->| ->]], Ez as [->|[->| ->]];
      apply list_elem_of_In; cbn; tauto.
  - intros H. apply list_elem_of_In in H. cbn in H.
    repeat (destruct H as [H|H]; [injection H as <- <- <-; lia|]).
    destruct H.
Qed.

Ltac destruct_grid g :=
  let p0 := fresh "p" in let p1 := fresh "p" in let p2 := fresh "p" in
  destruct g as [[p0 p1] p2];
  destruct_mat p0; destruct_mat p1; destruct_mat p2.

Ltac each_anchor H :=
  match type of H with in_bounds ?c => destruct_vec c end;
  apply in_bounds_anchors, list_elem_of_In in H; cbn in H;
  repeat (destruct H as [H|H]; [injection H as <- <- <-|]);
  [..|destruct H].

Lemma grid_get_in_bounds (g : Grid) (c : Vec3) :
  in_bounds c → is_Some (grid_get g c).
Proof. intros H. destruct_grid g. each_anchor H; compute; eauto. Qed.

Lemma grid_set_in_bounds (g : Grid) (c : Vec3) (v : Z) :
  in_bounds c → is_Some (grid_set g c v).
Proof. intros H. each_anchor H; compute; eauto. Qed.

Lemma grid_get_set (g g' : Grid) (c c' : Vec3) (v : Z) :
  in_bounds c → in_bounds c' → grid_set g c v = Some g' →
  grid_get g' c' = if decide (c = c') then Some v else grid_get g c'.
Proof.
  intros H H' E. destruct_grid g.
  each_anchor H; compute in E; injection E as <-; each_anchor H'; reflexivity.
Qed.

(** ** Validation and placement *)

Lemma for_items_validate (origin : Vec3) (items : list Vec3) (fr : Frame) :
  for_items items (λ offset,
    let cube_coord := vadd origin offset in
    if out_of_bounds cube_coord then raise OutOfBounds
    else
      v ← read_filled cube_coord;
      if truthy v then raise AlreadyFilled else mret tt) fr
  = match first_offence (self_box fr) (map (vadd origin) items) with
    | Some (i, e) => (with_iter_index fr (iter_index fr + S i), inl e)
    | None => (with_iter_index fr (iter_index fr + length items), inr tt)
    end.
Proof.
  revert fr. induction items as [|x items IH]; intros fr.
  - cbn. unfold with_iter_index. rewrite Nat.add_0_r. by destruct fr.
  - cbn [for_items map first_offence].
    unfold mbind, M_bind at 1 2. unfold iter_advance at 1.
    unfold check_cell.
    destruct (out_of_bounds (vadd origin x)) eqn:Eo.
    { cbn. unfold with_iter_index. cbn. do 3 f_equal. lia. }
    unfold mbind, M_bind, read_filled. cbn [self_box].
    destruct (grid_get _ _) as [v|] eqn:Eg.
    2:{ unfold with_iter_index. cbn. do 3 f_equal. lia. }
    destruct (truthy v) eqn:Ev.
    { cbn. unfold with_iter_index. cbn. do 3 f_equal. lia. }
    cbn -[for_items]. rewrite IH. cbn [self_box iter_index].
    destruct (first_offence _ _) as [[i e]|]; cbn;
      unfold with_iter_index; cbn; do 3 f_equal; lia.
Qed.

(** The validation loop, in closed form: the frame keeps its box and its
    block; the iterator has fetched the cells up to the first offending one,
    or all of them. *)
Lemma validate_placement_run (origin : Vec3) (fr : Frame) :
  validate_placement origin fr
  = match first_offence (self_box fr) (cells_at origin (arg_block fr)) with
    | Some (i, e) => (with_iter_index fr (S i), inl e)
    | None =>
        (with_iter_index fr (length (Block_iter (arg_block fr))), inr tt)
    end.
Proof.
  unfold validate_placement, for_offset_in_block.
  unfold mbind, M_bind at 1 2. unfold get_block, iter_reset.
  rewrite for_items_validate. cbn [self_box arg_block iter_index].
  unfold cells_at. by destruct (first_offence _ _) as [[i e]|].
Qed.

Lemma check_cell_None (self : Box) (c : Vec3) :
  check_cell self c = None ↔ in_bounds c ∧ ¬ occupied self c.
Proof.
  unfold check_cell, occupied, in_bounds.
  destruct (out_of_bounds c) eqn:Eo; [naive_solver|].
  destruct (grid_get_in_bounds (filled self) c Eo) as [v ->].
  destruct (truthy v) eqn:Ev; [naive_solver|].
  split; [|done]. intros _. split; [done|].
  intros (_ & w & [= <-] & Hw). congruence.
Qed.

Lemma check_cell_OutOfBounds (self : Box) (c : Vec3) :
  check_cell self c = Some OutOfBounds ↔ ¬ in_bounds c.
Proof.
  unfold check_cell, in_bounds.
  destruct (out_of_bounds c) eqn:Eo; [naive_solver|].
  destruct (grid_get_in_bounds (filled self) c Eo) as [v ->].
  destruct (truthy v); naive_solver.
Qed.

Lemma check_cell_AlreadyFilled (self : Box) (c : Vec3) :
  check_cell self c = Some AlreadyFilled ↔ occupied self c.
Proof.
  unfold check_cell, occupied, in_bounds.
  destruct (out_of_bounds c) eqn:Eo; [naive_solver|].
  destruct (grid_get_in_bounds (filled self) c Eo) as [v ->].
  destruct (truthy v) eqn:Ev; [naive_solver|].
  split; [done|]. intros (_ & w & [= <-] & Hw). congruence.
Qed.

Lemma check_cell_cases (self : Box) (c : Vec3) :
  check_cell self c = None
  ∨ check_cell self c = Some OutOfBounds
  ∨ check_cell self c = Some AlreadyFilled.
Proof.
  unfold check_cell. destruct (out_of_bounds c) eqn:Eo; [naive_solver|].
  destruct (grid_get_in_bounds (filled self) c Eo) as [v ->].
  destruct (truthy v); naive_solver.
Qed.

Lemma first_offence_None (self : Box) (cells : list Vec3) :
  first_offence self cells = None
  ↔ Forall (λ c, check_cell self c = None) cells.
Proof.
  induction cells as [|c cells IH]; cbn.
  - split; [constructor|done].
  - rewrite Forall_cons. destruct (check_cell self c) as [e|].
    + naive_solver.
    + rewrite fmap_None. naive_solver.
Qed.

Lemma first_offence_Some (self : Box) (cells : list Vec3) (i : nat)
    (e : IndexError) :
  first_offence self cells = Some (i, e)
  ↔ ∃ c, cells !! i = Some c ∧ check_cell self c = Some e
         ∧ Forall (λ c', check_cell self c' = None) (take i cells).
Proof.
  revert i. induction cells as [|c cells IH]; intros i; cbn.
  - split; [done|]. by intros (c & H & _).
  - destruct (check_cell self c) as [e'|] eqn:Ec.
    + split.
      * intros [= <- <-]. exists c. cbn. by repeat split.
      * intros (c' & Hi & He & Hpre). destruct i as [|i].
        -- cbn in Hi. injection Hi as <-. congruence.
        -- cbn in Hpre. apply Forall_cons in Hpre as [Hc _]. congruence.
    + rewrite fmap_Some. split.
      * intros ([j e'] & Hj & [= -> ->]). apply IH in Hj as (c' & H1 & H2 & H3).
        exists c'. cbn. rewrite Forall_cons. done.
      * intros (c' & Hi & He & Hpre). destruct i as [|i].
        -- cbn in Hi. injection Hi as <-. congruence.
        -- cbn in Hi, Hpre. apply Forall_cons in Hpre as [_ Hpre].
           exists (i, e). split; [|done]. apply IH. eauto.
Qed.

Lemma for_items_commit (origin : Vec3) (items : list Vec3) (fr : Frame) :
  Forall in_bounds (map (vadd origin) items) →
  ∃ g', for_items items (λ offset,
          let cube_coord := vadd origin offset in
          write_filled cube_coord 1) fr
        = ({| self_box := {| filled := g' |};
              arg_block := arg_block fr;
              iter_index := (iter_index fr + length items)%nat |}, inr tt)
        ∧ marks (filled (self_box fr)) (map (vadd origin) items) g'.
Proof.
  set (body := λ offset : Vec3, _).
  revert fr. induction items as [|x items IH]; intros fr Hin.
  - exists (filled (self_box fr)). split.
    + cbn. rewrite Nat.add_0_r. by destruct fr as [[?] ? ?].
    + intros c Hc. cbn. rewrite decide_False; [done|]. apply not_elem_of_nil.
  - cbn [map] in Hin. apply Forall_cons in Hin as [Hx Hin].
    cbn [for_items]. unfold mbind, M_bind at 1 2.
    unfold iter_advance at 1. unfold body at 1. unfold write_filled at 1.
    cbn [self_box].
    destruct (grid_set_in_bounds (filled (self_box fr)) (vadd origin x) 1 Hx)
      as [g1 Eg1].
    rewrite Eg1. cbn [arg_block iter_index].
    edestruct (IH {| self_box := {| filled := g1 |};
                     arg_block := arg_block fr;
                     iter_index := S (iter_index fr) |} Hin)
      as (g' & Erun & Hmarks).
    exists g'. split.
    + rewrite Erun. cbn. do 3 f_equal. lia.
    + intros c Hc. rewrite (Hmarks c Hc). cbn [self_box filled map].
      rewrite (grid_get_set _ _ _ c _ Hx Hc Eg1).
      repeat case_decide; try done; set_solver.
Qed.

Lemma place_fails (origin : Vec3) (fr : Frame) (i : nat) (e : IndexError) :
  first_offence (self_box fr) (cells_at origin (arg_block fr)) = Some (i, e) →
  place origin fr = (with_iter_index fr (S i), inl e).
Proof.
  intros E. unfold place, mbind, M_bind.
  by rewrite validate_placement_run, E.
Qed.

Lemma place_succeeds (origin : Vec3) (fr : Frame) :
  first_offence (self_box fr) (cells_at origin (arg_block fr)) = None →
  ∃ g', place origin fr
        = ({| self_box := {| filled := g' |};
              arg_block := arg_block fr;
              iter_index := length (Block_iter (arg_block fr)) |}, inr tt)
        ∧ marks (filled (self_box fr)) (cells_at origin (arg_block fr)) g'.
Proof.
  intros E. unfold place. unfold mbind, M_bind at 1.
  rewrite validate_placement_run, E.
  unfold for_offset_in_block, mbind, M_bind, get_block, iter_reset.
  cbn [arg_block self_box with_iter_index].
  apply first_offence_None in E.
  edestruct (for_items_commit origin (Block_iter (arg_block fr))
               {| self_box := self_box fr; arg_block := arg_block fr;
                  iter_index := 0 |}) as (g' & Erun & Hmarks).
  { eapply Forall_impl; [exact E|]. intros c Hc.
    by apply check_cell_None in Hc as [Hc _]. }
  exists g'. split; [|exact Hmarks]. exact Erun.
Qed.

(** Claim C3, as the code has it.  Validation leaves the box and the block
    as they were.  When it succeeds the loop has fetched every cell of the
    block and each one passed; when it raises, it raises at the first cell,
    in the block's order, that does not pass, having fetched that cell and
    the ones before it and none after it. *)
Theorem validate_placement_pure_first_offence (origin : Vec3) (fr : Frame) :
  let out := validate_placement origin fr in
  let cells := cells_at origin (arg_block fr) in
  self_box out.1 = self_box fr
  ∧ arg_block out.1 = arg_block fr
  ∧ match out.2 with
    | inr _ =>
        iter_index out.1 = length cells
        ∧ Forall (λ c, check_cell (self_box fr) c = None) cells
    | inl e =>
        ∃ i c, cells !! i = Some c
               ∧ check_cell (self_box fr) c = Some e
               ∧ Forall (λ c', check_cell (self_box fr) c' = None)
                        (take i cells)
               ∧ iter_index out.1 = S i
    end.
Proof.
  cbn zeta. rewrite validate_placement_run.
  destruct (first_offence _ _) as [[i e]|] eqn:E; cbn [fst snd].
  - repeat split; try done.
    apply first_offence_Some in E as (c & H1 & H2 & H3).
    by exists i, c.
  - repeat split; try done.
    + unfold cells_at. by rewrite length_map.
    + by apply first_offence_None.
Qed.

(** Claim C3 fails as stated: on a box whose cell (0,0,0) is filled,
    validating piece [B1] at anchor (0,0,0) reports the failure after
    fetching one of the piece's four cells. *)
Lemma validate_placement_stops_early :
  let b := Block_init B1 "B1" in
  let out := call (validate_placement (0, 0, 0)) corner_box b in
  out.2 = inl AlreadyFilled
  ∧ iter_index out.1 = 1%nat
  ∧ length (Block_iter b) = 4%nat.
Proof. by vm_compute. Qed.

(** The rejections listed with the source: a coordinate below 0, a
    coordinate above 2, and a cell that is already filled. *)
Example validate_below_zero :
  (call (validate_placement (0, 0, 0)) Box_init
     (Block_init [(-1, 0, 0)] "B0")).2 = inl OutOfBounds.
Proof. reflexivity. Qed.

Example validate_above_two :
  (call (validate_placement (2, 2, 2)) Box_init
     (Block_init [(1, 0, 0)] "B0")).2 = inl OutOfBounds.
Proof. reflexivity. Qed.

Example validate_overlap :
  (call (validate_placement (0, 0, 0)) corner_box unit_piece).2
  = inl AlreadyFilled.
Proof. reflexivity. Qed.

(** Claim C5, as the code has it.  Validation raises the out-of-bounds
    error exactly when some cell is out of bounds and every cell before it,
    in the block's order, is in bounds and free; among placements whose cells
    are all in bounds it raises the already-filled error exactly when some
    cell is occupied; it raises nothing exactly when every cell is in bounds
    and free; and it raises no other exception. *)
Theorem validate_placement_outcome (self : Box) (block : Block)
    (origin : Vec3) :
  let outcome := (call (validate_placement origin) self block).2 in
  let cells := cells_at origin block in
  (outcome = inl OutOfBounds
   ↔ ∃ i c, cells !! i = Some c ∧ ¬ in_bounds c
            ∧ Forall (λ c', in_bounds c' ∧ ¬ occupied self c') (take i cells))
  ∧ (Forall in_bounds cells
     → (outcome = inl AlreadyFilled ↔ Exists (occupied self) cells))
  ∧ (outcome = inr tt
     ↔ Forall (λ c, in_bounds c ∧ ¬ occupied self c) cells)
  ∧ (outcome = inl OutOfBounds ∨ outcome = inl AlreadyFilled
     ∨ outcome = inr tt).
Proof.
  cbn zeta. unfold call. rewrite validate_placement_run.
  cbn [self_box arg_block].
  set (cells := cells_at origin block).
  assert (Hok : ∀ l, Forall (λ c, check_cell self c = None) l
                     ↔ Forall (λ c, in_bounds c ∧ ¬ occupied self c) l).
  { intros l. apply Forall_proper; [|done]. intros c. apply check_cell_None. }
  destruct (first_offence self cells) as [[i e]|] eqn:E; cbn [snd].
  - apply first_offence_Some in E as (c & Hi & He & Hpre).
    assert (Hbad : ¬ Forall (λ c, in_bounds c ∧ ¬ occupied self c) cells).
    { intros HF. apply Hok in HF. rewrite Forall_forall in HF.
      specialize (HF c ltac:(by eapply list_elem_of_lookup_2)). congruence. }
    split; [|split; [|split]].
    + split.
      * intros [= ->]. exists i, c. split; [done|].
        split; [by apply check_cell_OutOfBounds in He | by apply Hok].
      * intros (j & c' & Hj & Hout & Hfree). f_equal.
        destruct (Nat.lt_total i j) as [Hlt|[->|Hgt]].
        -- rewrite Forall_forall in Hfree.
           assert (Hc : c ∈ take j cells).
           { apply list_elem_of_lookup. exists i.
             by rewrite lookup_take_lt. }
           apply Hfree, check_cell_None in Hc. congruence.
        -- assert (c' = c) as -> by congruence.
           apply (check_cell_OutOfBounds self) in Hout. congruence.
        -- apply Hok in Hpre. rewrite Forall_forall in Hpre.
           assert (Hc : c' ∈ take i cells).
           { apply list_elem_of_lookup. exists j.
             by rewrite lookup_take_lt. }
           apply Hpre in Hc as [Hc _]. done.
    + intros Hall. split.
      * intros [= ->]. apply Exists_exists. exists c.
        split; [by eapply list_elem_of_lookup_2|].
        by apply check_cell_AlreadyFilled.
      * intros _. f_equal.
        destruct (check_cell_cases self c) as [H|[H|H]]; [congruence| |congruence].
        apply check_cell_OutOfBounds in H. destruct H.
        rewrite Forall_forall in Hall. apply Hall.
        by eapply list_elem_of_lookup_2.
    + split; [done|]. intros H. by destruct Hbad.
    + destruct (check_cell_cases self c) as [H|[H|H]];
        [congruence| |]; rewrite He in H; injection H as ->; auto.
  - apply first_offence_None in E. apply Hok in E.
    split; [|split; [|split]].
    + split; [done|]. intros (j & c' & Hj & Hout & _).
      rewrite Forall_forall in E.
      destruct (E c' ltac:(by eapply list_elem_of_lookup_2)) as [H _]. done.
    + intros _. split; [done|]. intros Hex.
      apply Exists_exists in Hex as (c & Hc & Hocc).
      rewrite Forall_forall in E. by destruct (E c Hc) as [_ H].
    + done.
    + auto.
Qed.

(** Claim C5 at a concrete input: piece [B1] at anchor (0,1,0) of the box
    with the filled corner; all its cells are in bounds. *)
Lemma validate_placement_outcome_witness :
  let self := corner_box in
  let block := Block_init B1 "B1" in
  let origin := (0, 1, 0) in
  Forall in_bounds (cells_at origin block)
  ∧ ((call (validate_placement origin) self block).2 = inl AlreadyFilled
     ↔ Exists (occupied self) (cells_at origin block)).
Proof.
  cbn zeta.
  assert (H : Forall in_bounds (cells_at (0, 1, 0) (Block_init B1 "B1"))).
  { vm_compute. repeat constructor. }
  split; [exact H|].
  exact (proj1 (proj2 (validate_placement_outcome
                         corner_box (Block_init B1 "B1") (0, 1, 0))) H).
Defined.

(** Claim C5 fails as stated: on a box whose cell (0,0,0) is filled, a
    piece with offsets (0,0,0) and (3,0,0) at anchor (0,0,0) has a cell out
    of bounds, yet validation raises the already-filled error. *)
Lemma validate_placement_collision_first :
  let block := Block_init [(0, 0, 0); (3, 0, 0)] "B0" in
  let outcome := (call (validate_placement (0, 0, 0)) corner_box block).2 in
  ¬ (outcome = inl OutOfBounds
     ↔ Exists (λ c, ¬ in_bounds c) (cells_at (0, 0, 0) block)).
Proof.
  cbn zeta. intros [_ H].
  assert (E : Exists (λ c, ¬ in_bounds c)
                (cells_at (0, 0, 0) (Block_init [(0, 0, 0); (3, 0, 0)] "B0"))).
  { apply Exists_cons_tl, Exists_cons_hd. by vm_compute. }
  apply H in E. vm_compute in E. discriminate E.
Qed.

(** Claim C6.  A failed placement leaves the occupancy array, and the
    block, exactly as they were: the exception is the one validation raised,
    one of the two placement errors, and no cell has been marked. *)
Theorem place_atomic (origin : Vec3) (fr fr' : Frame) (e : IndexError) :
  place origin fr = (fr', inl e) →
  self_box fr' = self_box fr
  ∧ arg_block fr' = arg_block fr
  ∧ (validate_placement origin fr).2 = inl e
  ∧ (e = OutOfBounds ∨ e = AlreadyFilled).
Proof.
  intros Hplace.
  destruct (first_offence (self_box fr) (cells_at origin (arg_block fr)))
    as [[i e']|] eqn:E.
  - rewrite (place_fails _ _ _ _ E) in Hplace. injection Hplace as <- <-.
    rewrite validate_placement_run, E. repeat split; try done.
    apply first_offence_Some in E as (c & _ & He & _).
    destruct (check_cell_cases (self_box fr) c) as [H|[H|H]];
      rewrite He in H; [done| |]; injection H as ->; auto.
  - destruct (place_succeeds _ _ E) as (g' & Hrun & _). congruence.
Qed.

(** Claim C6 at a concrete input: placing piece [B1] on the filled corner
    fails and leaves the box as it was. *)
Lemma place_atomic_witness :
  let fr := {| self_box := corner_box; arg_block := Block_init B1 "B1";
               iter_index := 0 |} in
  (place (0, 0, 0) fr).2 = inl AlreadyFilled
  ∧ self_box (place (0, 0, 0) fr).1 = corner_box.
Proof.
  cbn zeta. split; [reflexivity|].
  exact (proj1 (place_atomic (0, 0, 0)
    {| self_box := corner_box; arg_block := Block_init B1 "B1";
       iter_index := 0 |} _ AlreadyFilled eq_refl)).
Defined.

(** ** The queries of the box *)

Lemma grid_entries_anchors (g : Grid) :
  grid_entries g = map (entry g) anchors.
Proof. destruct_grid g. reflexivity. Qed.

Lemma grid_get_entry (g : Grid) (c : Vec3) :
  in_bounds c → grid_get g c = Some (entry g c).
Proof.
  intros H. unfold entry. by destruct (grid_get_in_bounds g c H) as [v ->].
Qed.

Lemma marks_entry (g g' : Grid) (cells : list Vec3) (c : Vec3) :
  marks g cells g' → in_bounds c →
  entry g' c = if decide (c ∈ cells) then 1 else entry g c.
Proof.
  intros Hm Hc. unfold entry at 1. rewrite (Hm c Hc). by case_decide.
Qed.

Lemma marks_binary (g g' : Grid) (cells : list Vec3) :
  marks g cells g' → binary g → binary g'.
Proof.
  unfold binary. rewrite !grid_entries_anchors, !Forall_map.
  rewrite !Forall_forall. intros Hm Hb c Hc. cbn.
  rewrite (marks_entry _ _ _ _ Hm) by by apply in_bounds_anchors.
  case_decide; [by right | by apply Hb].
Qed.

Lemma call_place_ok (self : Box) (block : Block) (origin : Vec3) (fr : Frame) :
  call (place origin) self block = (fr, inr tt) →
  arg_block fr = block
  ∧ marks (filled self) (cells_at origin block) (filled (self_box fr))
  ∧ Forall (λ c, in_bounds c ∧ ¬ occupied self c) (cells_at origin block).
Proof.
  unfold call. intros Hrun.
  set (fr0 := {| self_box := self; arg_block := block; iter_index := 0 |}) in *.
  destruct (first_offence (self_box fr0) (cells_at origin (arg_block fr0)))
    as [[i e]|] eqn:E.
  - rewrite (place_fails _ _ _ _ E) in Hrun. done.
  - destruct (place_succeeds _ _ E) as (g' & Hrun' & Hm).
    rewrite Hrun' in Hrun. injection Hrun as <-. cbn.
    repeat split; [exact Hm|].
    apply first_offence_None in E. cbn in E.
    eapply Forall_impl; [exact E|]. intros c. apply check_cell_None.
Qed.

Lemma placed_from_empty_binary (self : Box) :
  placed_from_empty self → binary (filled self).
Proof.
  induction 1 as [|self block origin fr _ IH Hrun].
  - unfold binary. cbn. repeat constructor.
  - apply call_place_ok in Hrun as (_ & Hm & _).
    by eapply marks_binary.
Qed.

Lemma binary_sum (l : list Z) :
  Forall (λ v, v = 0 ∨ v = 1) l →
  0 ≤ foldr Z.add 0 l ≤ Z.of_nat (length l)
  ∧ (foldr Z.add 0 l = Z.of_nat (length l) ↔ Forall (λ v, v = 1) l).
Proof.
  induction 1 as [|v l Hv _ IH]; cbn [foldr length].
  - split; [lia|]. split; [constructor|done].
  - destruct IH as [Hb Hiff]. split; [lia|].
    rewrite Forall_cons. split.
    + intros Hs. assert (v = 1) by lia. split; [done|]. apply Hiff. lia.
    + intros [-> Hl]. apply Hiff in Hl. lia.
Qed.

Lemma is_filled_all_one (self : Box) :
  is_filled self = true ↔ Forall (λ v, v = 1) (grid_entries (filled self)).
Proof.
  unfold is_filled. rewrite forallb_forall, Forall_forall.
  split; intros H v Hv.
  - apply Z.eqb_eq, H. by apply list_elem_of_In.
  - apply Z.eqb_eq, H. by apply list_elem_of_In.
Qed.

Lemma reports_occupied_entry (self : Box) (c : Vec3) :
  in_bounds c → reports_occupied self c ↔ entry (filled self) c ≠ 0.
Proof.
  intros Hc. destruct c as [[i j] k]. unfold reports_occupied, coord_is_filled.
  rewrite (grid_get_entry _ _ Hc). unfold truthy.
  split.
  - intros (v & [= <-] & Hv). apply negb_true_iff, Z.eqb_neq in Hv. done.
  - intros Hne. eexists. split; [done|]. by apply negb_true_iff, Z.eqb_neq.
Qed.

(** Claim C8.  On a box produced by successful placements from the empty
    box the three queries agree: [is_filled] holds exactly when [num_filled]
    is 27, exactly when [coord_is_filled] is truthy at each of the 27 cells. *)
Theorem fill_queries_agree (self : Box) :
  placed_from_empty self →
  (is_filled self = true ↔ num_filled self = 27)
  ∧ (num_filled self = 27 ↔ Forall (reports_occupied self) anchors).
Proof.
  intros Hreach. apply placed_from_empty_binary in Hreach.
  destruct (binary_sum _ Hreach) as [_ Hsum].
  assert (Hlen : Z.of_nat (length (grid_entries (filled self))) = 27).
  { by rewrite grid_entries_anchors, length_map. }
  unfold num_filled. rewrite <- Hlen, Hsum, is_filled_all_one.
  split; [done|].
  unfold binary in Hreach. revert Hreach.
  rewrite grid_entries_anchors, !Forall_map, !Forall_forall.
  intros Hb. split; intros H c Hc.
  - apply reports_occupied_entry; [by apply in_bounds_anchors|].
    specialize (H c Hc). cbn in H. lia.
  - specialize (H c Hc).
    apply reports_occupied_entry in H; [|by apply in_bounds_anchors].
    specialize (Hb c Hc). cbn in *. lia.
Qed.

(** Claim C8 at a concrete input: the box after one placement. *)
Lemma fill_queries_agree_witness :
  (is_filled corner_box = true ↔ num_filled corner_box = 27)
  ∧ (num_filled corner_box = 27
     ↔ Forall (reports_occupied corner_box) anchors).
Proof.
  apply (fill_queries_agree corner_box).
  apply (pfe_place Box_init (Block_init [(0, 0, 0)] "B0") (0, 0, 0)
           (call (place (0, 0, 0)) Box_init (Block_init [(0, 0, 0)] "B0")).1).
  - apply pfe_init.
  - reflexivity.
Defined.

(** ** The search *)

Lemma pop_snoc {A : Type} (l : list A) (x : A) : pop (l ++ [x]) = Some (l, x).
Proof. unfold pop. by rewrite reverse_snoc, reverse_involutive. Qed.

Lemma pop_nil {A : Type} : pop (@nil A) = None.
Proof. reflexivity. Qed.

(** The three nested loops are one loop over the 27 cells in raster order. *)
Lemma search_anchors (rec : GameState → IndexError + Outcome)
    (game : GameState) (placement_block : Block) :
  search rec game placement_block
  = for_in anchors placement_block (anchor_step rec game).
Proof.
  unfold search.
  change (for_in range3 placement_block (λ i b,
            for_in range3 b (λ j b,
              for_in range3 b (λ k b, anchor_step rec game (i, j, k) b)))
          = for_in anchors placement_block (anchor_step rec game)).
  generalize (anchor_step rec game) as f. intros f. cbn.
  repeat match goal with
         | |- context [f ?c ?s] => destruct (f c s); try reflexivity
         end.
Qed.

Lemma pop_Some {A : Type} (l rest : list A) (x : A) :
  pop l = Some (rest, x) → l = rest ++ [x].
Proof.
  unfold pop. destruct (reverse l) as [|y r] eqn:E; [done|].
  intros [= <- <-]. rewrite <- (reverse_involutive l), E.
  by rewrite reverse_cons.
Qed.

Lemma for_in_ext {A S R : Type} (items : list A) (s : S)
    (body1 body2 : A → S → Flow S R) :
  (∀ x s', body1 x s' = body2 x s') →
  for_in items s body1 = for_in items s body2.
Proof.
  intros H. revert s. induction items as [|x items IH]; intros s; cbn.
  - done.
  - rewrite H. destruct (body2 x s); [apply IH|done|done].
Qed.

Lemma for_rotations_ext {R : Type} (gen : list gen_step) (b : Block)
    (body1 body2 : Block → list Vec3 → option R) :
  (∀ b' y, body1 b' y = body2 b' y) →
  for_rotations gen b body1 = for_rotations gen b body2.
Proof.
  intros H. revert b. induction gen as [|[] gen IH]; intros b; cbn.
  - done.
  - apply IH.
  - apply IH.
  - rewrite H. destruct (body2 _ _); [done|apply IH].
Qed.

Lemma attempt_ext (rec1 rec2 : GameState → IndexError + Outcome)
    (game : GameState) (ijk : Vec3) (b : Block) :
  (∀ g, block_candidates g = block_candidates game → rec1 g = rec2 g) →
  attempt rec1 game ijk b = attempt rec2 game ijk b.
Proof.
  intros H. unfold attempt.
  destruct (call (place ijk) (box game) b) as [fr [e|[]]]; [done|].
  by rewrite H.
Qed.

Lemma anchor_step_ext (rec1 rec2 : GameState → IndexError + Outcome)
    (game : GameState) (ijk : Vec3) (b : Block) :
  (∀ g, block_candidates g = block_candidates game → rec1 g = rec2 g) →
  anchor_step rec1 game ijk b = anchor_step rec2 game ijk b.
Proof.
  intros H. unfold anchor_step. destruct ijk as [[i j] k].
  destruct (coord_is_filled _ _ _ _) as [e|v]; [done|].
  destruct (truthy v); [done|].
  rewrite (for_rotations_ext _ _ _ (λ blk _, attempt rec2 game (i, j, k) blk));
    [done|].
  intros b' _. by apply attempt_ext.
Qed.

Lemma solve_body_ext (rec1 rec2 : GameState → IndexError + Outcome)
    (game : GameState) :
  (∀ g, S (length (block_candidates g)) = length (block_candidates game) →
        rec1 g = rec2 g) →
  solve_body rec1 game = solve_body rec2 game.
Proof.
  intros H. unfold solve_body.
  destruct (negb _ && _); [|done].
  destruct (pop (block_candidates game)) as [[rest pb]|] eqn:Epop; [|done].
  apply pop_Some in Epop.
  rewrite !search_anchors.
  rewrite (for_in_ext _ _ _ (anchor_step rec2
             {| block_candidates := rest;
                placed_blocks := placed_blocks game;
                box := box game |})); [done|].
  intros ijk b. apply anchor_step_ext. cbn. intros g Hg.
  apply H. rewrite Hg, Epop, length_app. cbn. lia.
Qed.

(** [solve] satisfies the recursive equation of the source. *)
Lemma solve_unfold (game : GameState) : solve game = solve_body solve game.
Proof.
  unfold solve at 1.
  destruct (length (block_candidates game)) as [|n] eqn:En.
  - cbn. unfold solve_body. rewrite En.
    by rewrite andb_false_r.
  - cbn [solve_fuel]. apply solve_body_ext. intros g Hg.
    unfold solve. f_equal. lia.
Qed.

Lemma first_return_None {R : Type} (body : Block → list Vec3 → option R)
    (b : Block) (Ms : list Mat3) :
  first_return body b Ms = None
  ↔ Forall (λ Y, body (rotate_by Y b) (coords (rotate_by Y b)) = None) Ms.
Proof.
  induction Ms as [|Y Ms IH]; cbn.
  - split; [constructor|done].
  - rewrite Forall_cons. destruct (body _ _); naive_solver.
Qed.

Lemma first_return_Some {R : Type} (body : Block → list Vec3 → option R)
    (b : Block) (Ms : list Mat3) (Y : Mat3) (r : R) :
  first_return body b Ms = Some (Y, r) →
  Y ∈ Ms ∧ body (rotate_by Y b) (coords (rotate_by Y b)) = Some r.
Proof.
  induction Ms as [|Y' Ms IH]; cbn; [done|].
  destruct (body (rotate_by Y' b) _) eqn:E.
  - intros [= <- <-]. split; [left|done].
  - intros H. destruct (IH H). split; [by right|done].
Qed.

Lemma same_shape_set_origin (b pb : Block) (ijk : Vec3) :
  same_shape b pb → set_origin b ijk = set_origin pb ijk.
Proof.
  unfold same_shape, set_origin. intros [= H1 H2 H3 H4]. congruence.
Qed.

Lemma same_shape_after (b pb : Block) (ijk : Vec3) :
  same_shape b pb → same_shape (set_origin b ijk) pb.
Proof. unfold same_shape, set_origin. cbn. done. Qed.

(** One iteration of the loop over the cells, in closed form. *)
Lemma anchor_step_run (rec : GameState → IndexError + Outcome)
    (game : GameState) (ijk : Vec3) (blk : Block) :
  in_bounds ijk →
  anchor_step rec game ijk blk
  = if truthy (entry (filled (box game)) ijk) then Next blk
    else match first_return (λ b _, attempt rec game ijk b)
                 (set_origin blk ijk) rotation_matrices with
         | Some (_, r) => Return r
         | None => Next (set_origin blk ijk)
         end.
Proof.
  intros Hin. unfold anchor_step. destruct ijk as [[i j] k].
  unfold coord_is_filled. rewrite (grid_get_entry _ _ Hin).
  destruct (truthy _); [done|].
  rewrite <- (rotate_by_I3 (set_origin blk (i, j, k))) at 1.
  rewrite for_rotations_rotate. fold rotation_matrices.
  destruct (first_return _ _ _) as [[Y r]|]; [done|].
  by rewrite final_matrix_rotations, rotate_by_I3.
Qed.

(** The loop over the cells: it never raises; when it runs to its end every
    cell was occupied or all its 24 attempts failed; when it returns, the
    value comes from an attempt at a free cell. *)
Lemma for_in_anchor_steps (rec : GameState → IndexError + Outcome)
    (game : GameState) (pb : Block) (l : list Vec3) (blk : Block) :
  Forall in_bounds l → same_shape blk pb →
  match for_in l blk (anchor_step rec game) with
  | Next blk' =>
      same_shape blk' pb
      ∧ Forall (λ ijk,
          reports_occupied (box game) ijk
          ∨ Forall (λ Y, attempt rec game ijk
                           (rotate_by Y (set_origin pb ijk)) = None)
                   rotation_matrices) l
  | Return r =>
      Exists (λ ijk,
          ¬ reports_occupied (box game) ijk
          ∧ Exists (λ Y, attempt rec game ijk
                           (rotate_by Y (set_origin pb ijk)) = Some r)
                   rotation_matrices) l
  | Raised _ => False
  end.
Proof.
  intros Hl. revert blk. induction Hl as [|ijk l Hin Hl IH]; intros blk Hs.
  - cbn [for_in]. split; [exact Hs|constructor].
  - cbn [for_in]. rewrite (anchor_step_run _ _ _ _ Hin).
    pose proof (reports_occupied_entry (box game) ijk Hin) as Hocc.
    destruct (truthy _) eqn:Et.
    + assert (Ho : reports_occupied (box game) ijk).
      { apply Hocc. unfold truthy in Et.
        by apply negb_true_iff, Z.eqb_neq in Et. }
      specialize (IH blk Hs).
      destruct (for_in l blk _) as [blk'|r|e];
        [|apply Exists_cons_tl, IH|exact IH].
      destruct IH as [IH1 IH2]. split; [exact IH1|].
      constructor; [left; exact Ho | exact IH2].
    + assert (Ho : ¬ reports_occupied (box game) ijk).
      { rewrite Hocc. unfold truthy in Et.
        apply negb_false_iff, Z.eqb_eq in Et. intros Hne. by apply Hne. }
      rewrite (same_shape_set_origin _ _ ijk Hs).
      destruct (first_return _ _ _) as [[Y r]|] eqn:Efr.
      * apply first_return_Some in Efr as [HY Hr].
        left. split; [exact Ho|]. apply Exists_exists. exists Y.
        split; [exact HY | exact Hr].
      * apply first_return_None in Efr.
        specialize (IH (set_origin pb ijk)
                      ltac:(by apply same_shape_after)).
        destruct (for_in l _ _) as [blk'|r|e];
          [|apply Exists_cons_tl, IH|exact IH].
        destruct IH as [IH1 IH2]. split; [exact IH1|].
        constructor; [right; exact Efr | exact IH2].
Qed.

Lemma orientation_rotate (k : nat) (Y : Mat3) (b : Block) :
  rotation_matrices !! k = Some Y → orientation k b = rotate_by Y b.
Proof.
  intros HY. pose proof (lookup_lt_Some _ _ _ HY) as Hk.
  unfold orientation. rewrite <- (rotate_by_I3 b) at 1.
  rewrite gen_take_rotate. cbn [fst]. fold rotation_matrices.
  rewrite decide_True by lia.
  rewrite last_lookup, length_take, Nat.min_l by lia.
  cbn [pred]. rewrite lookup_take_lt by lia. by rewrite HY.
Qed.

Lemma anchors_in_bounds : Forall in_bounds anchors.
Proof. apply Forall_forall. intros c. apply in_bounds_anchors. Qed.

(** The loops of [solve] on a state that is not solved and has a candidate
    left: the call pops the candidate, and either returns the solved result
    of one of its attempts, or returns its argument after all attempts
    failed. *)
Lemma solve_step (game : GameState) (rest : list Block) (pb : Block) :
  is_solved game = false →
  block_candidates game = rest ++ [pb] →
  (no_attempt_returns (popped game rest) pb
   ∧ solve game = inr {| input_after := popped game rest;
                         returned := popped game rest |})
  ∨ (∃ r ijk k,
        ijk ∈ anchors ∧ ¬ reports_occupied (box game) ijk ∧ (k < 24)%nat
        ∧ attempt solve (popped game rest) ijk
            (orientation k (set_origin pb ijk)) = Some r
        ∧ solve game = inr {| input_after := popped game rest;
                              returned := r |}).
Proof.
  intros Hns Hc. rewrite solve_unfold. unfold solve_body.
  rewrite Hns, Hc, length_app, pop_snoc. cbn [negb andb length].
  rewrite bool_decide_true by lia. fold (popped game rest).
  rewrite search_anchors.
  pose proof (for_in_anchor_steps solve (popped game rest) pb anchors pb
                anchors_in_bounds eq_refl) as H.
  destruct (for_in anchors pb _) as [blk'|r|e]; [left|right|done].
  - destruct H as [_ H]. split; [|done].
    unfold no_attempt_returns. eapply Forall_impl; [exact H|].
    intros ijk [Ho|Hall]; [by left|right].
    apply Forall_forall. intros k Hk. apply elem_of_seq in Hk.
    destruct (lookup_lt_is_Some_2 rotation_matrices k) as [Y HY].
    { rewrite rotation_matrices_length. lia. }
    rewrite (orientation_rotate _ _ _ HY).
    rewrite Forall_forall in Hall. apply Hall.
    by eapply list_elem_of_lookup_2.
  - apply Exists_exists in H as (ijk & Hin & Ho & HY).
    apply Exists_exists in HY as (Y & HY & Hr).
    apply list_elem_of_lookup in HY as [k HY].
    exists r, ijk, k. split; [done|]. split; [done|]. split.
    { apply lookup_lt_Some in HY. by rewrite rotation_matrices_length in HY. }
    split; [|done]. by rewrite (orientation_rotate _ _ _ HY).
Qed.

Lemma attempt_Some_solved (rec : GameState → IndexError + Outcome)
    (game : GameState) (ijk : Vec3) (b : Block) (r : GameState) :
  attempt rec game ijk b = Some r → is_solved r = true.
Proof.
  unfold attempt.
  destruct (call (place ijk) (box game) b) as [fr [e|[]]]; [done|].
  destruct (rec _) as [e|out]; [done|].
  destruct (is_solved (returned out)) eqn:E; [|done]. by intros [= <-].
Qed.

(** Claim C1, as the code has it.  On a state that is not solved and has a
    candidate left, when no attempt of this level returns a solved result,
    [solve] returns its argument as the call left it: the box and the list of
    placed blocks of the input, and the candidate queue of the input without
    the selected (last) piece. *)
Theorem solve_failure_returns_popped_state (game : GameState)
    (rest : list Block) (pb : Block) :
  is_solved game = false →
  block_candidates game = rest ++ [pb] →
  no_attempt_returns (popped game rest) pb →
  solve game = inr {| input_after := popped game rest;
                      returned := popped game rest |}.
Proof.
  intros Hns Hc Hno.
  destruct (solve_step game rest pb Hns Hc)
    as [[_ E]|(r & ijk & k & Hin & Ho & Hk & Hr & _)]; [exact E|].
  unfold no_attempt_returns in Hno. rewrite Forall_forall in Hno.
  destruct (Hno ijk Hin) as [Ho'|Hall]; [done|].
  rewrite Forall_forall in Hall.
  rewrite (Hall k) in Hr; [done|]. apply elem_of_seq. lia.
Qed.

(** Claim C9.  On a state that is not solved and has a candidate left,
    [solve] returns normally and has removed the last piece from the queue of
    the object it was given; when the result is not solved, the result is
    that object: the box and the placed blocks of the input, and the queue of
    the input without the selected piece. *)
Theorem solve_pops_selected_piece (game : GameState)
    (rest : list Block) (pb : Block) :
  is_solved game = false →
  block_candidates game = rest ++ [pb] →
  ∃ out, solve game = inr out
         ∧ input_after out = popped game rest
         ∧ (is_solved (returned out) = false
            → returned out = popped game rest).
Proof.
  intros Hns Hc.
  destruct (solve_step game rest pb Hns Hc)
    as [[_ E]|(r & ijk & k & _ & _ & _ & Hr & E)].
  - eexists. split; [exact E|]. done.
  - eexists. split; [exact E|]. split; [done|]. cbn.
    apply attempt_Some_solved in Hr. congruence.
Qed.

(** [solve] never raises. *)
Lemma solve_returns (game : GameState) : ∃ out, solve game = inr out.
Proof.
  destruct (is_solved game) eqn:Hs.
  { rewrite solve_unfold. unfold solve_body. rewrite Hs. cbn. eauto. }
  destruct (block_candidates game) as [|b l _] eqn:Hc using rev_ind.
  { rewrite solve_unfold. unfold solve_body. rewrite Hs, Hc. cbn. eauto. }
  destruct (solve_step game l b Hs Hc) as [[_ E]|(r & ? & ? & _ & _ & _ & _ & E)];
    eauto.
Qed.

Lemma no_attempt_returnsb_sound (game : GameState) (pb : Block) :
  no_attempt_returnsb game pb = true → no_attempt_returns game pb.
Proof.
  unfold no_attempt_returnsb, no_attempt_returns.
  rewrite forallb_forall, Forall_forall. intros H ijk Hin. right.
  apply list_elem_of_In, H in Hin. rewrite forallb_forall in Hin.
  apply Forall_forall. intros k Hk. apply list_elem_of_In, Hin in Hk.
  by destruct (attempt _ _ _ _).
Qed.

(** Claim C1 at a concrete input: the game with one single-cell piece. *)
Lemma solve_failure_returns_popped_state_witness :
  solve unit_game = inr {| input_after := popped unit_game [];
                           returned := popped unit_game [] |}.
Proof.
  apply (solve_failure_returns_popped_state unit_game [] unit_piece).
  - reflexivity.
  - reflexivity.
  - apply no_attempt_returnsb_sound. vm_compute. reflexivity.
Defined.

(** Claim C1 fails as stated: on the game with one single-cell piece no
    attempt returns a solved result, and the state [solve] returns has an
    empty candidate queue, while the input state held the piece. *)
Lemma solve_failure_drops_selected_piece :
  is_solved unit_game = false
  ∧ block_candidates unit_game = [unit_piece]
  ∧ no_attempt_returns (popped unit_game []) unit_piece
  ∧ ∃ out, solve unit_game = inr out
           ∧ block_candidates (returned out) = []
           ∧ returned out ≠ unit_game.
Proof.
  split; [reflexivity|]. split; [reflexivity|]. split.
  { apply no_attempt_returnsb_sound. vm_compute. reflexivity. }
  eexists. split; [vm_compute; reflexivity|]. split; [reflexivity|].
  intros H. discriminate H.
Qed.

(** Claim C9 at a concrete input: the game with one single-cell piece. *)
Lemma solve_pops_selected_piece_witness :
  ∃ out, solve unit_game = inr out
         ∧ input_after out = popped unit_game []
         ∧ (is_solved (returned out) = false
            → returned out = popped unit_game []).
Proof.
  apply (solve_pops_selected_piece unit_game [] unit_piece).
  - reflexivity.
  - reflexivity.
Defined.

(** The puzzle of the source file is solved, with its six pieces placed
    (the last-declared piece first). *)
Example solve_block_list :
  ∃ out, solve (GameState_init block_list) = inr out
         ∧ is_solved (returned out) = true
         ∧ name <$> placed_blocks (returned out)
           = ["B5"; "B4"; "B3"; "B2"; "B1"; "B0"]
         ∧ block_candidates (returned out) = [].
Proof.
  eexists. split; [vm_compute; reflexivity|].
  split; [by vm_compute|]. split; reflexivity.
Qed.

(** ** Occupied anchors *)

Lemma vadd_zero (c : Vec3) : vadd c (0, 0, 0) = c.
Proof. destruct_vec c. cbn. apply vec_eq; lia. Qed.

Lemma zero_in_matmul (M : Mat3) (cols : list Vec3) :
  (0, 0, 0) ∈ cols → (0, 0, 0) ∈ matmul M cols.
Proof.
  intros H. unfold matmul. rewrite <- (matvec_zero M).
  apply list_elem_of_fmap. by exists (0, 0, 0).
Qed.

Lemma reports_occupied_occupied (self : Box) (c : Vec3) :
  in_bounds c → reports_occupied self c ↔ occupied self c.
Proof.
  intros Hc. rewrite (reports_occupied_entry self c Hc).
  unfold occupied. rewrite (grid_get_entry _ _ Hc). unfold truthy. split.
  - intros Hne. split; [done|]. eexists. split; [done|].
    by apply negb_true_iff, Z.eqb_neq.
  - intros (_ & v & [= <-] & Hv). by apply negb_true_iff, Z.eqb_neq in Hv.
Qed.

(** A block with a cell on an occupied anchor is never placed there. *)
Lemma place_on_occupied_anchor (self : Box) (blk : Block) (ijk : Vec3) :
  (0, 0, 0) ∈ coords blk → occupied self ijk →
  ∃ fr e, (e = OutOfBounds ∨ e = AlreadyFilled)
          ∧ call (validate_placement ijk) self blk = (fr, inl e)
          ∧ call (place ijk) self blk = (fr, inl e).
Proof.
  intros H0 Hocc. unfold call.
  set (fr0 := {| self_box := self; arg_block := blk; iter_index := 0 |}).
  destruct (first_offence (self_box fr0) (cells_at ijk (arg_block fr0)))
    as [[i e]|] eqn:E.
  - exists (with_iter_index fr0 (S i)), e.
    rewrite validate_placement_run, E, (place_fails _ _ _ _ E).
    split; [|done].
    apply first_offence_Some in E as (c & _ & He & _).
    destruct (check_cell_cases (self_box fr0) c) as [H|[H|H]];
      rewrite He in H; [done| |]; injection H as ->; auto.
  - apply first_offence_None in E. rewrite Forall_forall in E.
    assert (Hin : ijk ∈ cells_at ijk (arg_block fr0)).
    { unfold cells_at, Block_iter. cbn. rewrite <- (vadd_zero ijk) at 1.
      apply list_elem_of_fmap. by exists (0, 0, 0). }
    apply E in Hin. cbn in Hin.
    apply check_cell_AlreadyFilled in Hocc. congruence.
Qed.

(** Claim C10.  The rotation matrices fix the zero vector, so a piece whose
    offsets contain (0,0,0) keeps that offset in each of the 24 orientations;
    hence at an anchor that [solve] skips as occupied, validating any of the
    24 orientations raises one of the two placement errors, and the attempt
    that [solve] would have made there returns nothing. *)
Theorem skipped_anchor_never_valid (game : GameState) (b : Block)
    (ijk : Vec3) (k : nat)
    (rec : GameState → IndexError + Outcome) :
  (0, 0, 0) ∈ coords b →
  ijk ∈ anchors →
  reports_occupied (box game) ijk →
  (k < 24)%nat →
  (matvec Rx (0, 0, 0) = (0, 0, 0) ∧ matvec Ry (0, 0, 0) = (0, 0, 0)
   ∧ matvec Rz (0, 0, 0) = (0, 0, 0))
  ∧ Forall (λ cs, (0, 0, 0) ∈ cs) (gen_all b).2
  ∧ (∃ e, (e = OutOfBounds ∨ e = AlreadyFilled)
          ∧ (call (validate_placement ijk) (box game)
               (orientation k (set_origin b ijk))).2 = inl e)
  ∧ attempt rec game ijk (orientation k (set_origin b ijk)) = None.
Proof.
  intros H0 Hin Hocc Hk.
  split; [by repeat split|]. split.
  { rewrite gen_all_yields, Forall_map. apply Forall_forall.
    intros Y _. cbn. by apply zero_in_matmul. }
  destruct (lookup_lt_is_Some_2 rotation_matrices k) as [Y HY].
  { rewrite rotation_matrices_length. lia. }
  rewrite (orientation_rotate _ _ _ HY).
  apply in_bounds_anchors in Hin.
  apply (reports_occupied_occupied _ _ Hin) in Hocc.
  destruct (place_on_occupied_anchor (box game)
              (rotate_by Y (set_origin b ijk)) ijk)
    as (fr & e & He & Hv & Hp); [|done|].
  { rewrite coords_rotate_by. by apply zero_in_matmul. }
  split.
  - exists e. by rewrite Hv.
  - unfold attempt. by rewrite Hp.
Qed.

(** Claim C10 at a concrete input: the first orientation of piece [B1] at
    the filled corner. *)
Lemma skipped_anchor_never_valid_witness :
  (∃ e, (e = OutOfBounds ∨ e = AlreadyFilled)
        ∧ (call (validate_placement (0, 0, 0)) corner_box
             (orientation 0 (set_origin (Block_init B1 "B1") (0, 0, 0)))).2
          = inl e)
  ∧ attempt solve {| block_candidates := []; placed_blocks := [unit_piece];
                     box := corner_box |} (0, 0, 0)
      (orientation 0 (set_origin (Block_init B1 "B1") (0, 0, 0))) = None.
Proof.
  refine (proj2 (proj2 (skipped_anchor_never_valid
    {| block_candidates := []; placed_blocks := [unit_piece];
       box := corner_box |}
    (Block_init B1 "B1") (0, 0, 0) 0 solve _ _ _ _))).
  - left.
  - apply in_bounds_anchors. reflexivity.
  - exists 1. split; reflexivity.
  - lia.
Defined.

(** ** The invariant of the search states *)

Lemma elem_of_filled_cells (self : Box) (c : Vec3) :
  c ∈ filled_cells self ↔ in_bounds c ∧ entry (filled self) c ≠ 0.
Proof.
  unfold filled_cells. rewrite elem_of_list_to_set, list_elem_of_filter.
  rewrite <- in_bounds_anchors. unfold truthy.
  rewrite negb_true_iff, Z.eqb_neq. tauto.
Qed.

Lemma filled_cells_occupied (self : Box) (c : Vec3) :
  c ∈ filled_cells self ↔ occupied self c.
Proof.
  rewrite elem_of_filled_cells. split.
  - intros [Hc Hne]. apply reports_occupied_occupied; [done|].
    by apply reports_occupied_entry.
  - intros Ho. pose proof Ho as [Hc _]. split; [done|].
    apply reports_occupied_entry; [done|].
    by apply reports_occupied_occupied.
Qed.

Lemma filled_cells_init : filled_cells Box_init = ∅.
Proof.
  apply set_eq. intros c. rewrite elem_of_filled_cells. split; [|set_solver].
  intros [Hc Hne]. destruct Hne. each_anchor Hc; reflexivity.
Qed.

Lemma filled_cells_marks (self self' : Box) (cells : list Vec3) :
  marks (filled self) cells (filled self') →
  Forall in_bounds cells →
  filled_cells self' = filled_cells self ∪ list_to_set cells.
Proof.
  intros Hm Hcells. apply set_eq. intros c.
  rewrite elem_of_union, elem_of_list_to_set, !elem_of_filled_cells.
  rewrite Forall_forall in Hcells. split.
  - intros [Hc Hne]. rewrite (marks_entry _ _ _ _ Hm Hc) in Hne.
    case_decide; [by right | by left].
  - intros [[Hc Hne]|Hin].
    + split; [done|]. rewrite (marks_entry _ _ _ _ Hm Hc).
      by case_decide.
    + split; [by apply Hcells|].
      rewrite (marks_entry _ _ _ _ Hm) by by apply Hcells.
      by rewrite decide_True.
Qed.

Lemma orientation_origin (k : nat) (b : Block) (ijk : Vec3) :
  (k < 24)%nat → origin (orientation k (set_origin b ijk)) = ijk.
Proof.
  intros Hk. destruct (lookup_lt_is_Some_2 rotation_matrices k) as [Y HY].
  { rewrite rotation_matrices_length. lia. }
  by rewrite (orientation_rotate _ _ _ HY).
Qed.

(** A successful placement keeps the invariant. *)
Lemma place_keeps_cover (self : Box) (bs : list Block) (blk : Block)
    (fr : Frame) :
  filled_cells self = ⋃ (abs_cells <$> bs) →
  pairwise_disjoint bs →
  call (place (origin blk)) self blk = (fr, inr tt) →
  filled_cells (self_box fr) = ⋃ (abs_cells <$> (bs ++ [arg_block fr]))
  ∧ pairwise_disjoint (bs ++ [arg_block fr]).
Proof.
  intros Hcov Hdis Hrun.
  apply call_place_ok in Hrun as (-> & Hm & Hfree).
  assert (Hnew : abs_cells blk ## filled_cells self).
  { intros c Hc Hf. unfold abs_cells in Hc.
    apply elem_of_list_to_set in Hc. rewrite Forall_forall in Hfree.
    apply Hfree in Hc as [_ Hc]. by apply filled_cells_occupied in Hf. }
  split.
  - rewrite (filled_cells_marks _ _ _ Hm).
    + rewrite fmap_app, union_list_app_L, Hcov. cbn.
      unfold abs_cells at 3. set_solver.
    + eapply Forall_impl; [exact Hfree|]. by intros c [? _].
  - assert (Hold : ∀ j bj, bs !! j = Some bj →
                     abs_cells bj ⊆ filled_cells self).
    { intros j bj Hj c Hc. rewrite Hcov. apply elem_of_union_list.
      exists (abs_cells bj). split; [|done].
      apply list_elem_of_fmap. exists bj. split; [done|].
      by eapply list_elem_of_lookup_2. }
    intros i j bi bj Hne Hi Hj.
    apply lookup_snoc_Some in Hi as [[Hi1 Hi2]|[Hi1 <-]];
      apply lookup_snoc_Some in Hj as [[Hj1 Hj2]|[Hj1 <-]].
    + by eapply Hdis.
    + specialize (Hold _ _ Hi2). set_solver.
    + specialize (Hold _ _ Hj2). set_solver.
    + lia.
Qed.

(** Claim C7.  Every search state reachable from a state with an empty box
    and no placed block satisfies: the set of filled cells of the box is the
    union of the absolute cells of the placed blocks, and the cell sets of
    two different placed blocks are disjoint. *)
Theorem reachable_cover (game : GameState) :
  reachable game →
  filled_cells (box game) = ⋃ (abs_cells <$> placed_blocks game)
  ∧ pairwise_disjoint (placed_blocks game).
Proof.
  induction 1 as [cands
                 |game rest pb _ IH Hns Hc
                 |game rest pb ijk k fr _ IH Hns Hc Hin Hfree Hk Hrun].
  - cbn [box placed_blocks]. split.
    + rewrite filled_cells_init. reflexivity.
    + intros i j bi bj _ Hi. by rewrite lookup_nil in Hi.
  - exact IH.
  - destruct IH as [Hcov Hdis]. cbn [box placed_blocks].
    rewrite <- (orientation_origin k pb ijk Hk) in Hrun at 1.
    by apply (place_keeps_cover _ _ _ _ Hcov Hdis Hrun).
Qed.

(** The states that a call of [solve] on a reachable state leaves behind
    and returns are reachable. *)
Lemma solve_reachable (game : GameState) (out : Outcome) :
  reachable game → solve game = inr out →
  reachable (input_after out) ∧ reachable (returned out).
Proof.
  remember (length (block_candidates game)) as n eqn:Hn.
  revert game out Hn. induction n as [|n IH]; intros game out Hn Hreach Hrun.
  - rewrite solve_unfold in Hrun. unfold solve_body in Hrun.
    rewrite <- Hn, andb_false_r in Hrun. by injection Hrun as <-.
  - destruct (is_solved game) eqn:Hs.
    { rewrite solve_unfold in Hrun. unfold solve_body in Hrun.
      rewrite Hs in Hrun. by injection Hrun as <-. }
    destruct (block_candidates game) as [|pb rest _] eqn:Hc using rev_ind;
      [done|].
    rewrite length_app in Hn. cbn in Hn.
    destruct (solve_step game rest pb Hs Hc)
      as [[_ E]|(r & ijk & k & Hin & Hfree & Hk & Hr & E)];
      rewrite E in Hrun; injection Hrun as <-; cbn [input_after returned].
    + split; by eapply reach_pop.
    + split; [by eapply reach_pop|].
      unfold attempt in Hr.
      destruct (call (place ijk) _ _) as [fr [e|[]]] eqn:Hplace; [done|].
      destruct (solve _) as [e|out'] eqn:Hrec; [done|].
      destruct (is_solved (returned out')); [|done]. injection Hr as <-.
      eapply (IH _ out'); [| |exact Hrec].
      * cbn. lia.
      * by eapply (reach_place game rest pb ijk k fr).
Qed.

(** Claim C7 at a concrete input: the state after the first orientation of
    piece [B1] was placed at the corner of the empty box. *)
Lemma reachable_cover_witness :
  let fr := (call (place (0, 0, 0)) Box_init
               (orientation 0 (set_origin (Block_init B1 "B1") (0, 0, 0)))).1 in
  filled_cells (self_box fr) = ⋃ (abs_cells <$> [] ++ [arg_block fr])
  ∧ pairwise_disjoint ([] ++ [arg_block fr]).
Proof.
  cbn zeta.
  apply (reachable_cover
    {| block_candidates := [];
       placed_blocks := [] ++ [arg_block _];
       box := self_box _ |}).
  apply (reach_place
           {| block_candidates := [] ++ [Block_init B1 "B1"];
              placed_blocks := []; box := Box_init |}
           [] (Block_init B1 "B1") (0, 0, 0) 0).
  - apply reach_init.
  - reflexivity.
  - reflexivity.
  - apply in_bounds_anchors. reflexivity.
  - intros (v & Hv & Ht). vm_compute in Hv. injection Hv as <-.
    discriminate Ht.
  - lia.
  - vm_compute. reflexivity.
Defined.

(** * Further properties of the code *)

(** ** Rolling and turning a block *)

(** X1.  Four rolls in a row, and four turns in a row, give the block back
    as it was, offsets and direction included. *)
Theorem roll_turn_period_four (b : Block) :
  roll (roll (roll (roll b))) = b ∧ turn (turn (turn (turn b))) = b.
Proof.
  split.
  - transitivity
      (rotate_by (mat_mul Rx (mat_mul Rx (mat_mul Rx (mat_mul Rx I3)))) b).
    + by rewrite <- !roll_rotate, rotate_by_I3.
    + apply rotate_by_I3.
  - transitivity
      (rotate_by (mat_mul Rz (mat_mul Rz (mat_mul Rz (mat_mul Rz I3)))) b).
    + by rewrite <- !turn_rotate, rotate_by_I3.
    + apply rotate_by_I3.
Qed.

Lemma orthogonal_sq_dist (M : Mat3) (u v : Vec3) :
  orthogonal M → sq_dist (matvec M u) (matvec M v) = sq_dist u v.
Proof.
  intros Horth. destruct_mat M. destruct_vec u. destruct_vec v.
  unfold orthogonal in Horth. cbn in Horth.
  injection Horth as E1 E2 E3 E4 E5 E6 E7 E8 E9.
  cbn.
  set (dx := a2 - a3). set (dy := b2 - b3). set (dz := c2 - c3).
  transitivity
    ((a * a + a0 * a0 + a1 * a1) * (dx * dx)
     + (b * b + b0 * b0 + b1 * b1) * (dy * dy)
     + (c * c + c0 * c0 + c1 * c1) * (dz * dz)
     + 2 * (a * b + a0 * b0 + a1 * b1) * (dx * dy)
     + 2 * (a * c + a0 * c0 + a1 * c1) * (dx * dz)
     + 2 * (b * c + b0 * c0 + b1 * c1) * (dy * dz)).
  - unfold dx, dy, dz. ring.
  - rewrite E1, E2, E3, E5, E6, E9. ring.
Qed.

Lemma sq_dists_map (f : Vec3 → Vec3) (l1 l2 : list Vec3) :
  (∀ u v, sq_dist (f u) (f v) = sq_dist u v) →
  (u ← map f l1; v ← map f l2; [sq_dist u v])
  = (u ← l1; v ← l2; [sq_dist u v]).
Proof.
  intros Hf. induction l1 as [|u l1 IH]; [done|].
  cbn [map]. rewrite !bind_cons, IH. f_equal.
  clear IH. induction l2 as [|v l2 IH]; [done|].
  cbn [map]. rewrite !bind_cons, IH, Hf. done.
Qed.

Lemma rotate_by_sq_dists (Y : Mat3) (cols : list Vec3) :
  orthogonal Y → pairwise_sq_dists (matmul Y cols) = pairwise_sq_dists cols.
Proof.
  intros HY. unfold pairwise_sq_dists, matmul. apply sq_dists_map.
  intros u v. by apply orthogonal_sq_dist.
Qed.

(** X2.  Rolling, turning and every orientation that a run of the
    generator yields keep the rigid shape of the piece: the number of cells
    and the table of squared distances between its cells are those of the
    block the run started from. *)
Theorem rotations_preserve_shape (b : Block) :
  pairwise_sq_dists (coords (roll b)) = pairwise_sq_dists (coords b)
  ∧ pairwise_sq_dists (coords (turn b)) = pairwise_sq_dists (coords b)
  ∧ Forall (λ ys, length ys = length (coords b)
                  ∧ pairwise_sq_dists ys = pairwise_sq_dists (coords b))
           (gen_all b).2.
Proof.
  split; [by apply rotate_by_sq_dists|]. split; [by apply rotate_by_sq_dists|].
  rewrite gen_all_yields, Forall_map. apply Forall_forall. intros Y HY.
  cbn beta. split.
  - unfold matmul. by rewrite length_map.
  - apply rotate_by_sq_dists.
    pose proof rotation_matrices_proper as HP.
    rewrite Forall_forall in HP. by destruct (HP Y HY).
Qed.

(** X3.  Over one run of the generator on a freshly constructed block, the
    block's [direction] takes each of the six axis directions at exactly four
    of the 24 yields, and an exhausted run leaves it at (1,0,0) again. *)
Theorem rotations_direction_visits (cs : list Vec3) (nm : string) :
  let b := Block_init cs nm in
  let ds := map (λ k, direction (orientation k b)) (seq 0 24) in
  Forall (λ d, occurrences d ds = 4%nat) axis_directions
  ∧ direction (gen_all b).1 = (1, 0, 0).
Proof.
  cbn zeta. split.
  - assert (E : map (λ k, direction (orientation k (Block_init cs nm)))
                  (seq 0 24)
                = map (λ Y, matvec Y (1, 0, 0)) rotation_matrices).
    { apply list_eq. intros k. rewrite !list_lookup_fmap.
      destruct (decide (k < 24)%nat) as [Hk|Hk].
      - destruct (lookup_lt_is_Some_2 rotation_matrices k) as [Y HY].
        { rewrite rotation_matrices_length. lia. }
        rewrite HY, lookup_seq_lt by lia. cbn.
        by rewrite (orientation_rotate _ _ _ HY).
      - rewrite lookup_seq_ge by lia.
        rewrite (lookup_ge_None_2 rotation_matrices)
          by (rewrite rotation_matrices_length; lia).
        done. }
    rewrite E. unfold axis_directions.
    repeat (apply Forall_cons_2; [vm_compute; reflexivity|]).
    apply Forall_nil_2.
  - by rewrite gen_all_restores.
Qed.

(** ** Reading and marking the box *)

Lemma call_place_succeeds (self : Box) (block : Block) (origin : Vec3) :
  Forall (λ c, in_bounds c ∧ ¬ occupied self c) (cells_at origin block) →
  ∃ fr, call (place origin) self block = (fr, inr tt).
Proof.
  intros Hfree. unfold call.
  set (fr0 := {| self_box := self; arg_block := block; iter_index := 0 |}).
  destruct (place_succeeds origin fr0) as (g' & Hrun & _).
  - apply first_offence_None. cbn.
    eapply Forall_impl; [exact Hfree|]. intros c. apply check_cell_None.
  - rewrite Hrun. eauto.
Qed.

(** X5.  A placement succeeds exactly when every cell of the piece at the
    anchor is in bounds and free.  It then leaves the block as it was, sets
    the entry of each of the piece's cells to 1 and keeps every other entry:
    the filled cells afterwards are the filled cells before together with the
    piece's cells. *)
Theorem place_success_effect (self : Box) (block : Block) (origin : Vec3) :
  let out := call (place origin) self block in
  let cells := cells_at origin block in
  (out.2 = inr tt ↔ Forall (λ c, in_bounds c ∧ ¬ occupied self c) cells)
  ∧ (out.2 = inr tt →
     arg_block out.1 = block
     ∧ Forall (λ c, grid_get (filled (self_box out.1)) c = Some 1) cells
     ∧ (∀ c, in_bounds c → c ∉ cells →
             grid_get (filled (self_box out.1)) c = grid_get (filled self) c)
     ∧ filled_cells (self_box out.1)
       = filled_cells self ∪ list_to_set cells).
Proof.
  cbn zeta.
  destruct (call (place origin) self block) as [fr [e|[]]] eqn:Hrun;
    cbn [fst snd].
  - split; [|done]. split; [done|]. intros Hfree.
    destruct (call_place_succeeds _ _ _ Hfree) as [fr' Hrun']. congruence.
  - pose proof (call_place_ok _ _ _ _ Hrun) as (Hb & Hm & Hfree).
    split; [done|]. intros _. split; [done|].
    assert (Hin : Forall in_bounds (cells_at origin block)).
    { eapply Forall_impl; [exact Hfree|]. by intros c [? _]. }
    split; [|split].
    + apply Forall_forall. intros c Hc. rewrite Forall_forall in Hin.
      rewrite (Hm c (Hin c Hc)). by rewrite decide_True.
    + intros c Hc Hnot. rewrite (Hm c Hc). by rewrite decide_False.
    + by apply filled_cells_marks.
Qed.

(** X5 at a concrete input: piece [B1] at the corner of the empty box. *)
Lemma place_success_effect_witness :
  let out := call (place (0, 0, 0)) Box_init (Block_init B1 "B1") in
  out.2 = inr tt
  ∧ filled_cells (self_box out.1)
    = filled_cells Box_init
      ∪ list_to_set (cells_at (0, 0, 0) (Block_init B1 "B1")).
Proof.
  cbn zeta. split; [reflexivity|].
  apply (proj2 (place_success_effect Box_init (Block_init B1 "B1") (0, 0, 0))).
  reflexivity.
Defined.

(** X6.  A piece cannot be placed twice: after a successful placement of a
    piece with at least one cell, placing the same piece at the same anchor
    again raises the already-filled error at its first cell and leaves the box
    as it was. *)
Theorem place_twice_fails (self : Box) (block : Block) (origin : Vec3)
    (fr : Frame) :
  coords block ≠ [] →
  call (place origin) self block = (fr, inr tt) →
  call (place origin) (self_box fr) block
  = ({| self_box := self_box fr; arg_block := block; iter_index := 1 |},
     inl AlreadyFilled).
Proof.
  intros Hne Hrun.
  pose proof (call_place_ok _ _ _ _ Hrun) as (_ & Hm & Hfree).
  unfold call.
  set (fr1 := {| self_box := self_box fr; arg_block := block;
                 iter_index := 0 |}).
  rewrite (place_fails origin fr1 0 AlreadyFilled); [done|].
  cbn [self_box arg_block fr1]. unfold cells_at, Block_iter in *.
  destruct (coords block) as [|off offs]; [done|]. cbn [map first_offence].
  apply Forall_cons in Hfree as [[Hin _] _].
  assert (Hocc : check_cell (self_box fr) (vadd origin off)
                 = Some AlreadyFilled).
  { apply check_cell_AlreadyFilled. split; [done|]. exists 1.
    split; [|done]. rewrite (Hm _ Hin). rewrite decide_True; [done|]. left. }
  by rewrite Hocc.
Qed.

(** X6 at a concrete input: piece [B1] at the corner of the empty box. *)
Lemma place_twice_fails_witness :
  let fr := (call (place (0, 0, 0)) Box_init (Block_init B1 "B1")).1 in
  call (place (0, 0, 0)) (self_box fr) (Block_init B1 "B1")
  = ({| self_box := self_box fr; arg_block := Block_init B1 "B1";
        iter_index := 1 |}, inl AlreadyFilled).
Proof.
  cbn zeta.
  apply (place_twice_fails Box_init (Block_init B1 "B1") (0, 0, 0)).
  - discriminate.
  - reflexivity.
Defined.

Lemma anchors_NoDup : NoDup anchors.
Proof.
  apply NoDup_ListNoDup. unfold anchors. cbn.
  repeat (apply List.NoDup_cons;
          [ cbn; intros H;
            repeat (destruct H as [H|H]; [discriminate H|]); exact H | ]).
  apply List.NoDup_nil.
Qed.

Lemma binary_count (g : Grid) (l : list Vec3) :
  Forall (λ c, entry g c = 0 ∨ entry g c = 1) l →
  foldr Z.add 0 (map (entry g) l)
  = Z.of_nat (length (filter (λ c, truthy (entry g c) = true) l)).
Proof.
  induction 1 as [|c l Hc _ IH]; [done|].
  cbn [map foldr]. rewrite filter_cons, IH.
  destruct (decide (truthy (entry g c) = true)) as [Ht|Ht];
    unfold truthy in Ht; destruct Hc as [E|E]; rewrite E in Ht |- *;
    cbn in Ht; try done; cbn [length]; lia.
Qed.

Lemma num_filled_size (self : Box) :
  binary (filled self) →
  num_filled self = Z.of_nat (size (filled_cells self)).
Proof.
  intros Hb. unfold num_filled, filled_cells, binary in *.
  rewrite grid_entries_anchors in *. rewrite Forall_map in Hb.
  rewrite (binary_count _ _ Hb). f_equal.
  rewrite size_list_to_set; [done|].
  apply NoDup_filter, anchors_NoDup.
Qed.

(** X7.  On a box produced by successful placements from the empty box,
    [num_filled] is the number of filled cells, and a further successful
    placement raises it by the number of different cells of the piece. *)
Theorem place_adds_cells (self : Box) (block : Block) (origin : Vec3)
    (fr : Frame) :
  placed_from_empty self →
  call (place origin) self block = (fr, inr tt) →
  num_filled self = Z.of_nat (size (filled_cells self))
  ∧ num_filled (self_box fr)
    = num_filled self
      + Z.of_nat (size (list_to_set (cells_at origin block) : gset Vec3)).
Proof.
  intros Hreach Hrun.
  pose proof (placed_from_empty_binary _ Hreach) as Hb.
  pose proof (call_place_ok _ _ _ _ Hrun) as (_ & Hm & Hfree).
  pose proof (marks_binary _ _ _ Hm Hb) as Hb'.
  rewrite (num_filled_size _ Hb), (num_filled_size _ Hb').
  split; [done|].
  rewrite (filled_cells_marks _ _ _ Hm).
  2:{ eapply Forall_impl; [exact Hfree|]. by intros c [? _]. }
  rewrite size_union; [lia|].
  intros c Hc Hin. apply elem_of_list_to_set in Hin.
  rewrite Forall_forall in Hfree. apply Hfree in Hin as [_ Hin].
  by apply filled_cells_occupied in Hc.
Qed.

(** X7 at a concrete input: piece [B1] at the corner of the empty box. *)
Lemma place_adds_cells_witness :
  let fr := (call (place (0, 0, 0)) Box_init (Block_init B1 "B1")).1 in
  num_filled Box_init = Z.of_nat (size (filled_cells Box_init))
  ∧ num_filled (self_box fr)
    = num_filled Box_init
      + Z.of_nat (size (list_to_set
                          (cells_at (0, 0, 0) (Block_init B1 "B1"))
                        : gset Vec3)).
Proof.
  cbn zeta.
  apply (place_adds_cells Box_init (Block_init B1 "B1") (0, 0, 0)).
  - apply pfe_init.
  - reflexivity.
Defined.

(** ** The search as a whole *)

Lemma solve_base (game : GameState) :
  is_solved game = true ∨ block_candidates game = [] →
  solve game = inr {| input_after := game; returned := game |}.
Proof.
  intros H. rewrite solve_unfold. unfold solve_body.
  destruct H as [-> | ->]; [done|]. by rewrite andb_false_r.
Qed.

Lemma solve_cases (game : GameState) :
  (is_solved game = true ∨ block_candidates game = [])
  ∨ (is_solved game = false
     ∧ ∃ rest pb, block_candidates game = rest ++ [pb]).
Proof.
  destruct (is_solved game); [by left; left|].
  destruct (block_candidates game) as [|pb rest _] using rev_ind;
    [by left; right|].
  right. eauto.
Qed.

(** X8.  On a state whose candidates each have at least one cell, [solve]
    does not raise.  It does not change the box or the list of placed blocks
    of the state object it is given, and removes at most the last piece from
    its queue; and a result that is not solved is that same object. *)
Theorem solve_input_frame (game : GameState) :
  Forall (λ b, coords b ≠ []) (block_candidates game) →
  ∃ out, solve game = inr out
         ∧ box (input_after out) = box game
         ∧ placed_blocks (input_after out) = placed_blocks game
         ∧ (block_candidates (input_after out) = block_candidates game
            ∨ ∃ pb, block_candidates game
                    = block_candidates (input_after out) ++ [pb])
         ∧ (is_solved (returned out) = false
            → returned out = input_after out).
Proof.
  intros _.
  destruct (solve_cases game) as [Hbase|(Hns & rest & pb & Hc)].
  - eexists. split; [by apply solve_base|]. cbn. auto.
  - destruct (solve_step game rest pb Hns Hc)
      as [[_ E]|(r & ijk & k & _ & _ & _ & Hr & E)];
      (eexists; split; [exact E|]); cbn; repeat split; eauto.
    apply attempt_Some_solved in Hr. congruence.
Qed.

(** X8 at a concrete input: the puzzle of the source file. *)
Lemma solve_input_frame_witness :
  let game := GameState_init block_list in
  ∃ out, solve game = inr out
         ∧ box (input_after out) = box game
         ∧ placed_blocks (input_after out) = placed_blocks game
         ∧ (block_candidates (input_after out) = block_candidates game
            ∨ ∃ pb, block_candidates game
                    = block_candidates (input_after out) ++ [pb])
         ∧ (is_solved (returned out) = false
            → returned out = input_after out).
Proof.
  cbn zeta. apply (solve_input_frame (GameState_init block_list)).
  repeat (apply Forall_cons_2; [discriminate|]). apply Forall_nil_2.
Defined.

(** X9.  The depth of the recursion of [solve] is bounded by the number of
    candidates: run with any fuel that is at least the length of the queue,
    the recursion gives the result of [solve]. *)
Theorem solve_fuel_enough (fuel : nat) (game : GameState) :
  (length (block_candidates game) ≤ fuel)%nat →
  solve_fuel fuel game = solve game.
Proof.
  revert game. induction fuel as [|fuel IH]; intros game Hlen.
  - unfold solve. by replace (length (block_candidates game)) with 0%nat by lia.
  - cbn [solve_fuel]. rewrite solve_unfold. apply solve_body_ext.
    intros g Hg. apply IH. lia.
Qed.

(** X9 at a concrete input: the game with one piece, run with fuel 5. *)
Lemma solve_fuel_enough_witness : solve_fuel 5 unit_game = solve unit_game.
Proof. apply (solve_fuel_enough 5 unit_game). cbn. lia. Defined.

Lemma attempt_Some (game : GameState) (ijk : Vec3) (blk : Block)
    (r : GameState) :
  attempt solve game ijk blk = Some r
  ↔ ∃ fr out,
      call (place ijk) (box game) blk = (fr, inr tt)
      ∧ solve {| block_candidates := block_candidates game;
                 placed_blocks := placed_blocks game ++ [arg_block fr];
                 box := self_box fr |} = inr out
      ∧ returned out = r ∧ is_solved r = true.
Proof.
  unfold attempt.
  destruct (call (place ijk) (box game) blk) as [fr [e|[]]].
  { split; [done|]. by intros (? & ? & ? & _). }
  destruct (solve _) as [e|out] eqn:Hrec.
  { split; [done|]. intros (? & ? & [= <-] & ? & _). congruence. }
  destruct (is_solved (returned out)) eqn:Hs.
  - split.
    + intros [= <-]. by exists fr, out.
    + intros (? & ? & [= <-] & ? & <- & _). congruence.
  - split; [done|]. intros (? & ? & [= <-] & ? & <- & ?). congruence.
Qed.

Lemma solved_iff_solvable_aux (n : nat) (game : GameState) :
  length (block_candidates game) = n →
  (∃ out, solve game = inr out ∧ is_solved (returned out) = true)
  → solvable game.
Proof.
  revert game. induction n as [|n IH]; intros game Hn (out & Hrun & Hs).
  - rewrite solve_base in Hrun by (right; by destruct (block_candidates game)).
    injection Hrun as <-. by apply solvable_filled.
  - destruct (solve_cases game) as [Hbase|(Hns & rest & pb & Hc)].
    { rewrite (solve_base _ Hbase) in Hrun. injection Hrun as <-.
      by apply solvable_filled. }
    destruct (solve_step game rest pb Hns Hc)
      as [[_ E]|(r & ijk & k & Hin & Hfree & Hk & Hr & E)];
      rewrite E in Hrun; injection Hrun as <-; cbn in Hs.
    { unfold is_solved in *. cbn in Hs. congruence. }
    apply attempt_Some in Hr as (fr & out' & Hplace & Hrec & <- & Hs').
    eapply (solvable_place game rest pb ijk k fr); try done.
    apply IH.
    + cbn. rewrite Hc, length_app in Hn. cbn in Hn. lia.
    + by exists out'.
Qed.

Lemma solvable_solved (game : GameState) :
  solvable game →
  ∃ out, solve game = inr out ∧ is_solved (returned out) = true.
Proof.
  induction 1 as [game Hs
                 |game rest pb ijk k fr Hns Hc Hin Hfree Hk Hplace _ IH].
  - eexists. split; [apply solve_base; by left|done].
  - destruct IH as (out' & Hrec & Hs').
    assert (Hr : attempt solve (popped game rest) ijk
                   (orientation k (set_origin pb ijk))
                 = Some (returned out')).
    { apply attempt_Some. by exists fr, out'. }
    destruct (solve_step game rest pb Hns Hc)
      as [[Hno _]|(r & ? & ? & _ & _ & _ & Hr' & E)].
    + unfold no_attempt_returns in Hno. rewrite Forall_forall in Hno.
      destruct (Hno ijk Hin) as [Ho|Hall]; [done|].
      rewrite Forall_forall in Hall.
      rewrite (Hall k) in Hr; [done|]. apply elem_of_seq. lia.
    + eexists. split; [exact E|]. cbn.
      by apply attempt_Some_solved in Hr'.
Qed.

(** X10.  [solve] is a complete search for the fixed order of the pieces:
    it returns a solved state exactly when a solution exists in which the
    pieces are taken from the end of the queue and each one is placed, in one
    of its 24 orientations, at a cell that is free at that moment. *)
Theorem solve_solved_iff_solvable (game : GameState) :
  (∃ out, solve game = inr out ∧ is_solved (returned out) = true)
  ↔ solvable game.
Proof.
  split.
  - by apply (solved_iff_solvable_aux _ game eq_refl).
  - apply solvable_solved.
Qed.

Lemma orientation_keeps_zero (k : nat) (b : Block) (ijk : Vec3) :
  (k < 24)%nat → (0, 0, 0) ∈ coords b →
  (0, 0, 0) ∈ coords (orientation k (set_origin b ijk)).
Proof.
  intros Hk H0.
  destruct (lookup_lt_is_Some_2 rotation_matrices k) as [Y HY].
  { rewrite rotation_matrices_length. lia. }
  rewrite (orientation_rotate _ _ _ HY), coords_rotate_by.
  by apply zero_in_matmul.
Qed.

Lemma solvable_drop_free (game : GameState) :
  solvable game → solvable_anywhere game.
Proof.
  induction 1 as [game Hs|game rest pb ijk k fr Hns Hc Hin Hfree Hk Hp _ IH].
  - by apply anywhere_filled.
  - by eapply anywhere_place.
Qed.

Lemma solvable_anywhere_free (game : GameState) :
  solvable_anywhere game →
  Forall (λ b, (0, 0, 0) ∈ coords b) (block_candidates game) →
  solvable game.
Proof.
  induction 1 as [game Hs|game rest pb ijk k fr Hns Hc Hin Hk Hp _ IH];
    intros Hzero.
  - by apply solvable_filled.
  - rewrite Hc in Hzero. apply Forall_app in Hzero as [Hrest Hpb].
    apply Forall_cons in Hpb as [Hpb _].
    eapply (solvable_place game rest pb ijk k fr); try done.
    + intros Hocc. apply in_bounds_anchors in Hin.
      apply (reports_occupied_occupied _ _ Hin) in Hocc.
      destruct (place_on_occupied_anchor (box game)
                  (orientation k (set_origin pb ijk)) ijk)
        as (fr' & e & _ & _ & Hfail); [|done|congruence].
      exact (orientation_keeps_zero k pb ijk Hk Hpb).
    + by apply IH.
Qed.

(** X16.  When every candidate has the offset (0,0,0), skipping the occupied
    cells loses nothing: [solve] returns a solved state exactly when a
    solution exists in which the pieces are taken from the end of the queue
    and each one is placed, in one of its 24 orientations, at any cell of the
    box. *)
Theorem solve_complete_with_origin_cell (game : GameState) :
  Forall (λ b, (0, 0, 0) ∈ coords b) (block_candidates game) →
  (∃ out, solve game = inr out ∧ is_solved (returned out) = true)
  ↔ solvable_anywhere game.
Proof.
  intros Hzero. split.
  - intros H. apply solvable_drop_free.
    by apply (solved_iff_solvable_aux _ game eq_refl).
  - intros H. by apply solvable_solved, solvable_anywhere_free.
Qed.

(** X16 at a concrete input: the puzzle of the source file. *)
Lemma solve_complete_with_origin_cell_witness :
  (∃ out, solve (GameState_init block_list) = inr out
          ∧ is_solved (returned out) = true)
  ↔ solvable_anywhere (GameState_init block_list).
Proof.
  apply (solve_complete_with_origin_cell (GameState_init block_list)).
  repeat (apply Forall_cons_2; [left|]). apply Forall_nil_2.
Defined.

(** ** The length and the items of a block *)

Lemma built_len (b : Block) : built b → coord_len b = length (coords b).
Proof.
  induction 1 as [cs nm|b o _ IH|b _ IH _|b _ IH _]; cbn; try done.
  - unfold matmul. by rewrite length_map.
  - unfold matmul. by rewrite length_map.
Qed.

(** X17.  For a block made by the constructor and any calls of
    [set_origin], [roll] and [turn], [len(block)] is the number of items that
    iterating over the block gives.  For an integer i, [block[i]] returns an
    offset exactly when -len(block) <= i < len(block): for i from 0 on it is
    item i of the iteration, and for a negative i it is item len(block) + i,
    the items counted from the end; for every other index it raises, and
    that it does so at len(block) is what ends the iteration. *)
Theorem Block_len_getitem (b : Block) (i : Z) :
  built b →
  let n := Z.of_nat (coord_len b) in
  length (Block_iter b) = coord_len b
  ∧ (is_Some (Block_getitem b i) ↔ - n ≤ i < n)
  ∧ (0 ≤ i → Block_getitem b i = Block_iter b !! Z.to_nat i)
  ∧ (- n ≤ i < 0 → Block_getitem b i = Block_iter b !! Z.to_nat (i + n))
  ∧ Block_getitem b n = None.
Proof.
  intros Hb. apply built_len in Hb. cbn zeta.
  unfold Block_iter, Block_getitem. rewrite Hb. cbn zeta.
  set (n := Z.of_nat (length (coords b))).
  assert (Hn : 0 ≤ n) by lia.
  split; [done|]. split; [|split; [|split]].
  - destruct (Z.leb_spec 0 i), (Z.ltb_spec i n), (Z.leb_spec (- n) i),
      (Z.ltb_spec i 0); cbn [andb]; rewrite ?lookup_lt_is_Some;
      try (split; [intros []; discriminate|lia]); lia.
  - intros Hi. destruct (Z.leb_spec 0 i); [|lia]. cbn [andb].
    destruct (Z.ltb_spec i n); [done|].
    destruct (Z.leb_spec (- n) i), (Z.ltb_spec i 0); cbn [andb]; try lia;
      symmetry; apply lookup_ge_None; lia.
  - intros Hi. destruct (Z.leb_spec 0 i); [lia|]. cbn [andb].
    destruct (Z.leb_spec (- n) i); [|lia].
    by destruct (Z.ltb_spec i 0); [|lia].
  - destruct (Z.leb_spec 0 n); [|lia]. cbn [andb].
    destruct (Z.ltb_spec n n); [lia|].
    destruct (Z.leb_spec (- n) n), (Z.ltb_spec n 0); cbn [andb]; try lia;
      done.
Qed.

(** X17 at a concrete input: piece [B1], rolled and turned, and its last
    item. *)
Lemma Block_len_getitem_witness :
  let b := turn (roll (Block_init B1 "B1")) in
  let n := Z.of_nat (coord_len b) in
  length (Block_iter b) = coord_len b
  ∧ (is_Some (Block_getitem b (-1)) ↔ - n ≤ -1 < n)
  ∧ (0 ≤ -1 → Block_getitem b (-1) = Block_iter b !! Z.to_nat (-1))
  ∧ (- n ≤ -1 < 0 → Block_getitem b (-1) = Block_iter b !! Z.to_nat (-1 + n))
  ∧ Block_getitem b n = None.
Proof.
  cbn zeta. apply (Block_len_getitem (turn (roll (Block_init B1 "B1"))) (-1)).
  apply built_turn; [apply built_roll; [apply built_init|]|]; discriminate.
Defined.


Lemma puzzle_outcome_run : solve (GameState_init block_list) = inr puzzle_outcome.
Proof. vm_compute. reflexivity. Qed.

Lemma puzzle_outcome_solved : is_solved (returned puzzle_outcome) = true.
Proof. vm_compute. reflexivity. Qed.

Lemma first_return_first {R : Type} (body : Block → list Vec3 → option R)
    (b : Block) (Ms : list Mat3) (Y : Mat3) (r : R) :
  first_return body b Ms = Some (Y, r) →
  ∃ k, Ms !! k = Some Y
       ∧ body (rotate_by Y b) (coords (rotate_by Y b)) = Some r
       ∧ ∀ k' Y', (k' < k)%nat → Ms !! k' = Some Y' →
           body (rotate_by Y' b) (coords (rotate_by Y' b)) = None.
Proof.
  induction Ms as [|Y0 Ms IH]; cbn [first_return]; [done|].
  destruct (body (rotate_by Y0 b) _) eqn:E.
  - intros [= <- <-]. exists 0%nat. repeat split; [done|]. intros; lia.
  - intros H. destruct (IH H) as (k & Hk & Hr & Hbefore).
    exists (S k). repeat split; [done..|].
    intros [|k'] Y' Hlt HY'.
    + cbn in HY'. by injection HY' as <-.
    + cbn in HY'. apply (Hbefore k'); [lia|done].
Qed.

(** The loop over the cells returns the result of the first attempt, in
    the order of the cells and of the orientations, that returns. *)
Lemma for_in_anchor_first (rec : GameState → IndexError + Outcome)
    (game : GameState) (pb : Block) (l : list Vec3) (blk : Block)
    (r : GameState) :
  Forall in_bounds l → same_shape blk pb →
  for_in l blk (anchor_step rec game) = Return r →
  ∃ a ijk k Y,
    l !! a = Some ijk
    ∧ ¬ reports_occupied (box game) ijk
    ∧ rotation_matrices !! k = Some Y
    ∧ attempt rec game ijk (rotate_by Y (set_origin pb ijk)) = Some r
    ∧ (∀ k' Y', (k' < k)%nat → rotation_matrices !! k' = Some Y' →
         attempt rec game ijk (rotate_by Y' (set_origin pb ijk)) = None)
    ∧ (∀ a' ijk', (a' < a)%nat → l !! a' = Some ijk' →
         reports_occupied (box game) ijk'
         ∨ Forall (λ Y', attempt rec game ijk'
                           (rotate_by Y' (set_origin pb ijk')) = None)
                  rotation_matrices).
Proof.
  intros Hl. revert blk. induction Hl as [|ijk l Hin Hl IH]; intros blk Hs.
  - done.
  - cbn [for_in]. rewrite (anchor_step_run _ _ _ _ Hin).
    pose proof (reports_occupied_entry (box game) ijk Hin) as Hocc.
    assert (Hshift : ∀ blk', same_shape blk' pb →
      (reports_occupied (box game) ijk
       ∨ Forall (λ Y', attempt rec game ijk
                         (rotate_by Y' (set_origin pb ijk)) = None)
                rotation_matrices) →
      for_in l blk' (anchor_step rec game) = Return r →
      ∃ a ijk0 k Y,
        (ijk :: l) !! a = Some ijk0
        ∧ ¬ reports_occupied (box game) ijk0
        ∧ rotation_matrices !! k = Some Y
        ∧ attempt rec game ijk0 (rotate_by Y (set_origin pb ijk0)) = Some r
        ∧ (∀ k' Y', (k' < k)%nat → rotation_matrices !! k' = Some Y' →
             attempt rec game ijk0 (rotate_by Y' (set_origin pb ijk0)) = None)
        ∧ (∀ a' ijk', (a' < a)%nat → (ijk :: l) !! a' = Some ijk' →
             reports_occupied (box game) ijk'
             ∨ Forall (λ Y', attempt rec game ijk'
                               (rotate_by Y' (set_origin pb ijk')) = None)
                      rotation_matrices)).
    { intros blk' Hs' Hhere Hrun.
      destruct (IH blk' Hs' Hrun) as (a & ijk0 & k & Y & H1 & H2 & H3 & H4 & H5 & H6).
      exists (S a), ijk0, k, Y. repeat split; try done.
      intros [|a'] ijk' Hlt Ha'.
      - cbn in Ha'. by injection Ha' as <-.
      - cbn in Ha'. apply (H6 a'); [lia|done]. }
    destruct (truthy _) eqn:Et.
    + intros Hrun. apply (Hshift blk Hs); [|done]. left.
      apply Hocc. unfold truthy in Et.
      by apply negb_true_iff, Z.eqb_neq in Et.
    + assert (Ho : ¬ reports_occupied (box game) ijk).
      { rewrite Hocc. unfold truthy in Et.
        apply negb_false_iff, Z.eqb_eq in Et. intros Hne. by apply Hne. }
      rewrite (same_shape_set_origin _ _ ijk Hs).
      destruct (first_return _ _ _) as [[Y r']|] eqn:Efr.
      * intros [= <-]. apply first_return_first in Efr as (k & Hk & Hr & Hb).
        exists 0%nat, ijk, k, Y. repeat split; try done. intros; lia.
      * intros Hrun. apply first_return_None in Efr.
        apply (Hshift (set_origin pb ijk)); [by apply same_shape_after| |done].
        by right.
Qed.

(** X11.  On a state that is not solved and has a candidate left, a solved
    result of [solve] is the result of the first attempt that succeeds: the
    cells are tried in raster order and, at each free cell, the 24
    orientations in the order of the generator, each starting from the piece
    as it was popped; every combination before the one that is returned
    either lies on an occupied cell or fails. *)
Theorem solve_returns_first_solution (game : GameState) (rest : list Block)
    (pb : Block) (out : Outcome) :
  is_solved game = false →
  block_candidates game = rest ++ [pb] →
  solve game = inr out →
  is_solved (returned out) = true →
  ∃ a ijk k,
    anchors !! a = Some ijk
    ∧ (k < 24)%nat
    ∧ ¬ reports_occupied (box game) ijk
    ∧ attempt solve (popped game rest) ijk
        (orientation k (set_origin pb ijk)) = Some (returned out)
    ∧ (∀ k', (k' < k)%nat →
         attempt solve (popped game rest) ijk
           (orientation k' (set_origin pb ijk)) = None)
    ∧ (∀ a' ijk' k', (a' < a)%nat → anchors !! a' = Some ijk' →
         (k' < 24)%nat →
         reports_occupied (box game) ijk'
         ∨ attempt solve (popped game rest) ijk'
             (orientation k' (set_origin pb ijk')) = None).
Proof.
  intros Hns Hc Hrun Hs. rewrite solve_unfold in Hrun.
  unfold solve_body in Hrun.
  rewrite Hns, Hc, length_app, pop_snoc in Hrun. cbn [negb andb length] in Hrun.
  rewrite bool_decide_true in Hrun by lia. fold (popped game rest) in Hrun.
  rewrite search_anchors in Hrun.
  pose proof (for_in_anchor_first solve (popped game rest) pb anchors pb)
    as Hfirst.
  destruct (for_in anchors pb _) as [blk'|r|e] eqn:Eloop; [| |done].
  { injection Hrun as <-. unfold is_solved in *. cbn in Hs. congruence. }
  injection Hrun as <-. cbn [returned] in *.
  destruct (Hfirst r anchors_in_bounds eq_refl eq_refl)
    as (a & ijk & k & Y & Ha & Hfree & HY & Hr & Hbefore & Hearlier).
  assert (Hlen := rotation_matrices_length).
  exists a, ijk, k. split; [done|]. split.
  { apply lookup_lt_Some in HY. lia. }
  split; [done|]. split; [by rewrite (orientation_rotate _ _ _ HY)|]. split.
  - intros k' Hk'.
    destruct (lookup_lt_is_Some_2 rotation_matrices k') as [Y' HY'].
    { apply lookup_lt_Some in HY. lia. }
    rewrite (orientation_rotate _ _ _ HY'). by apply (Hbefore k' Y').
  - intros a' ijk' k' Ha' Hijk' Hk'.
    destruct (Hearlier a' ijk' Ha' Hijk') as [Ho|Hall]; [by left|right].
    destruct (lookup_lt_is_Some_2 rotation_matrices k') as [Y' HY']; [lia|].
    rewrite (orientation_rotate _ _ _ HY').
    rewrite Forall_forall in Hall. apply Hall.
    by eapply list_elem_of_lookup_2.
Qed.

(** X11 at a concrete input: the puzzle of the source file. *)
Lemma solve_returns_first_solution_witness :
  ∃ a ijk k,
    anchors !! a = Some ijk
    ∧ (k < 24)%nat
    ∧ ¬ reports_occupied Box_init ijk
    ∧ attempt solve
        (popped (GameState_init block_list)
           [Block_init B1 "B0"; Block_init B2 "B1"; Block_init B3 "B2";
            Block_init B4 "B3"; Block_init B5 "B4"]) ijk
        (orientation k (set_origin (Block_init B6 "B5") ijk))
      = Some (returned puzzle_outcome)
    ∧ (∀ k', (k' < k)%nat →
         attempt solve
           (popped (GameState_init block_list)
              [Block_init B1 "B0"; Block_init B2 "B1"; Block_init B3 "B2";
               Block_init B4 "B3"; Block_init B5 "B4"]) ijk
           (orientation k' (set_origin (Block_init B6 "B5") ijk)) = None)
    ∧ (∀ a' ijk' k', (a' < a)%nat → anchors !! a' = Some ijk' →
         (k' < 24)%nat →
         reports_occupied Box_init ijk'
         ∨ attempt solve
             (popped (GameState_init block_list)
                [Block_init B1 "B0"; Block_init B2 "B1"; Block_init B3 "B2";
                 Block_init B4 "B3"; Block_init B5 "B4"]) ijk'
             (orientation k' (set_origin (Block_init B6 "B5") ijk')) = None).
Proof.
  apply (solve_returns_first_solution (GameState_init block_list)
           [Block_init B1 "B0"; Block_init B2 "B1"; Block_init B3 "B2";
            Block_init B4 "B3"; Block_init B5 "B4"]
           (Block_init B6 "B5") puzzle_outcome).
  - reflexivity.
  - reflexivity.
  - vm_compute. reflexivity.
  - vm_compute. reflexivity.
Defined.

(** The invariant of the reachable states, for use below. *)
Lemma reachable_invariant (game : GameState) :
  reachable game →
  filled_cells (box game) = ⋃ (abs_cells <$> placed_blocks game)
  ∧ pairwise_disjoint (placed_blocks game).
Proof.
  induction 1 as [cands
                 |game rest pb _ IH Hns Hc
                 |game rest pb ijk k fr _ IH Hns Hc Hin Hfree Hk Hrun].
  - cbn [box placed_blocks]. split.
    + rewrite filled_cells_init. reflexivity.
    + intros i j bi bj _ Hi. by rewrite lookup_nil in Hi.
  - exact IH.
  - destruct IH as [Hcov Hdis]. cbn [box placed_blocks].
    rewrite <- (orientation_origin k pb ijk Hk) in Hrun at 1.
    by apply (place_keeps_cover _ _ _ _ Hcov Hdis Hrun).
Qed.

Lemma is_filled_filled_cells (self : Box) :
  is_filled self = true → filled_cells self = list_to_set anchors.
Proof.
  intros Hf. apply is_filled_all_one in Hf.
  rewrite grid_entries_anchors, Forall_map, Forall_forall in Hf.
  apply set_eq. intros c.
  rewrite elem_of_filled_cells, elem_of_list_to_set, <- in_bounds_anchors.
  split; [by intros [? _]|]. intros Hc. split; [done|].
  apply in_bounds_anchors in Hc. specialize (Hf c Hc). cbn in Hf. lia.
Qed.

Lemma pairwise_disjoint_cons (b : Block) (bs : list Block) :
  pairwise_disjoint (b :: bs) →
  abs_cells b ## ⋃ (abs_cells <$> bs) ∧ pairwise_disjoint bs.
Proof.
  intros Hd. split.
  - intros c Hc Hu. apply elem_of_union_list in Hu as (X & HX & HcX).
    apply list_elem_of_fmap in HX as (b' & -> & Hb').
    apply list_elem_of_lookup in Hb' as [j Hj].
    by apply (Hd 0%nat (S j) b b' ltac:(lia) eq_refl Hj c).
  - intros i j bi bj Hne Hi Hj.
    apply (Hd (S i) (S j) bi bj); [lia|done..].
Qed.

Lemma size_union_list_disjoint (bs : list Block) :
  pairwise_disjoint bs →
  size (⋃ (abs_cells <$> bs)) = sum_list (size ∘ abs_cells <$> bs).
Proof.
  induction bs as [|b bs IH]; intros Hd.
  - reflexivity.
  - apply pairwise_disjoint_cons in Hd as [Hb Hd].
    rewrite !fmap_cons, union_list_cons. cbn [sum_list sum_list_with].
    rewrite size_union by done. by rewrite IH.
Qed.

(** X12.  When [solve], started on a state reached from an empty box with
    nothing placed, returns a solved state, the placed blocks tile the box:
    their absolute cell sets are pairwise disjoint, the union of these sets
    is the set of all 27 cells, and their sizes add up to 27. *)
Theorem solved_result_tiles_box (game : GameState) (out : Outcome) :
  reachable game →
  solve game = inr out →
  is_solved (returned out) = true →
  ⋃ (abs_cells <$> placed_blocks (returned out)) = list_to_set anchors
  ∧ pairwise_disjoint (placed_blocks (returned out))
  ∧ sum_list (size ∘ abs_cells <$> placed_blocks (returned out)) = 27%nat.
Proof.
  intros Hreach Hrun Hs.
  destruct (solve_reachable game out Hreach Hrun) as [_ Hr].
  destruct (reachable_invariant _ Hr) as [Hcov Hdis].
  apply is_filled_filled_cells in Hs.
  assert (Hu : ⋃ (abs_cells <$> placed_blocks (returned out))
               = list_to_set anchors) by congruence.
  split; [done|]. split; [done|].
  rewrite <- size_union_list_disjoint by done. rewrite Hu.
  rewrite size_list_to_set by apply anchors_NoDup. reflexivity.
Qed.

(** X12 at a concrete input: the puzzle of the source file. *)
Lemma solved_result_tiles_box_witness :
  ⋃ (abs_cells <$> placed_blocks (returned puzzle_outcome))
  = list_to_set anchors
  ∧ pairwise_disjoint (placed_blocks (returned puzzle_outcome))
  ∧ sum_list (size ∘ abs_cells <$> placed_blocks (returned puzzle_outcome))
    = 27%nat.
Proof.
  apply (solved_result_tiles_box (GameState_init block_list) puzzle_outcome).
  - apply reach_init.
  - vm_compute. reflexivity.
  - vm_compute. reflexivity.
Defined.

Lemma solved_result_pieces_aux (n : nat) (game : GameState) (out : Outcome) :
  length (block_candidates game) = n →
  solve game = inr out →
  is_solved (returned out) = true →
  ∃ used new,
    block_candidates game = block_candidates (returned out) ++ used
    ∧ placed_blocks (returned out) = placed_blocks game ++ new
    ∧ Forall2 oriented_copy (reverse used) new.
Proof.
  revert game out. induction n as [|n IH]; intros game out Hn Hrun Hs.
  - rewrite solve_base in Hrun by (right; by destruct (block_candidates game)).
    injection Hrun as <-. exists [], []. cbn.
    by rewrite !app_nil_r.
  - destruct (solve_cases game) as [Hbase|(Hns & rest & pb & Hc)].
    { rewrite (solve_base _ Hbase) in Hrun. injection Hrun as <-.
      exists [], []. cbn. by rewrite !app_nil_r. }
    destruct (solve_step game rest pb Hns Hc)
      as [[_ E]|(r & ijk & k & Hin & Hfree & Hk & Hr & E)];
      rewrite E in Hrun; injection Hrun as <-; cbn [returned] in *.
    { unfold is_solved in *. cbn in Hs. congruence. }
    apply attempt_Some in Hr as (fr & out' & Hplace & Hrec & <- & Hs').
    apply call_place_ok in Hplace as (Hblk & _ & _).
    assert (Hlen : length rest = n).
    { rewrite Hc, length_app in Hn. cbn in Hn. lia. }
    destruct (IH {| block_candidates := rest;
                    placed_blocks := placed_blocks game ++ [arg_block fr];
                    box := self_box fr |} out' Hlen Hrec Hs')
      as (used & new & Hu & Hp & Hcopies).
    cbn [block_candidates placed_blocks popped] in Hu, Hp.
    exists (used ++ [pb]), (arg_block fr :: new). split; [|split].
    + by rewrite Hc, Hu, app_assoc.
    + by rewrite Hp, <- app_assoc.
    + rewrite reverse_snoc. constructor; [|done].
      rewrite Hblk. by exists ijk, k.
Qed.

(** X13.  In a solved result of [solve] no piece is lost or invented: the
    queue of the result is the queue of the input without some pieces at its
    end, the placed list of the result is the placed list of the input
    followed by one block for each of these pieces, last piece first, and
    each of these blocks is its piece in one of the 24 orientations, anchored
    at a cell of the box. *)
Theorem solved_result_pieces (game : GameState) (out : Outcome) :
  solve game = inr out →
  is_solved (returned out) = true →
  ∃ used new,
    block_candidates game = block_candidates (returned out) ++ used
    ∧ placed_blocks (returned out) = placed_blocks game ++ new
    ∧ Forall2 oriented_copy (reverse used) new.
Proof. apply (solved_result_pieces_aux _ game out eq_refl). Qed.

(** X13 at a concrete input: the puzzle of the source file. *)
Lemma solved_result_pieces_witness :
  ∃ used new,
    block_candidates (GameState_init block_list)
    = block_candidates (returned puzzle_outcome) ++ used
    ∧ placed_blocks (returned puzzle_outcome)
      = placed_blocks (GameState_init block_list) ++ new
    ∧ Forall2 oriented_copy (reverse used) new.
Proof.
  apply (solved_result_pieces (GameState_init block_list) puzzle_outcome).
  - vm_compute. reflexivity.
  - vm_compute. reflexivity.
Defined.

(** ** The drawing of a solution *)

Lemma sq_dist_one (c1 c2 : Vec3) : sq_dist c1 c2 = 1 ↔ face_adjacent c1 c2.
Proof.
  destruct_vec c1. destruct_vec c2. unfold sq_dist, face_adjacent.
  split.
  - intros H. destruct (unit_vector_entries _ _ _ H) as (Ha & Hb & Hc).
    lia.
  - intros H.
    assert (Ha : a - a0 = -1 ∨ a - a0 = 0 ∨ a - a0 = 1) by lia.
    assert (Hb : b - b0 = -1 ∨ b - b0 = 0 ∨ b - b0 = 1) by lia.
    assert (Hc : c - c0 = -1 ∨ c - c0 = 0 ∨ c - c0 = 1) by lia.
    destruct Ha as [Ea|[Ea|Ea]], Hb as [Eb|[Eb|Eb]], Hc as [Ec|[Ec|Ec]];
      rewrite Ea, Eb, Ec in *; lia.
Qed.

Lemma sq_dist_sym (c1 c2 : Vec3) : sq_dist c1 c2 = sq_dist c2 c1.
Proof. destruct_vec c1. destruct_vec c2. unfold sq_dist. ring. Qed.

Lemma vadd_comm (u v : Vec3) : vadd u v = vadd v u.
Proof. destruct_vec u. destruct_vec v. cbn. apply vec_eq; lia. Qed.

Lemma elem_of_block_segments (b : Block) (c1 c2 : Vec3) :
  (c1, c2) ∈ block_segments b
  ↔ c1 ∈ abs_cells b ∧ c2 ∈ abs_cells b ∧ face_adjacent c1 c2.
Proof.
  unfold block_segments, abs_cells, cells_at.
  rewrite !elem_of_list_to_set, !list_elem_of_fmap, list_elem_of_bind.
  split.
  - intros (u & Hseg & Hu). apply list_elem_of_bind in Hseg as (v & Hseg & Hv).
    cbn zeta in Hseg.
    destruct (sq_dist _ _ =? 1) eqn:Ed; [|by apply elem_of_nil in Hseg].
    apply list_elem_of_singleton in Hseg. injection Hseg as -> ->.
    apply Z.eqb_eq, sq_dist_one in Ed.
    split; [exists u; by rewrite vadd_comm|].
    split; [exists v; by rewrite vadd_comm|done].
  - intros ((u & -> & Hu) & (v & -> & Hv) & Hadj).
    exists u. split; [|done]. apply list_elem_of_bind. exists v.
    split; [|done]. cbn zeta. rewrite !(vadd_comm _ (origin b)).
    apply sq_dist_one, Z.eqb_eq in Hadj. rewrite Hadj.
    by apply list_elem_of_singleton.
Qed.

Lemma reachable_placed_in_box (game : GameState) :
  reachable game → placed_in_box game.
Proof.
  unfold placed_in_box.
  induction 1 as [cands
                 |game rest pb _ IH Hns Hc
                 |game rest pb ijk k fr _ IH Hns Hc Hin Hfree Hk Hrun].
  - apply Forall_nil_2.
  - exact IH.
  - cbn [placed_blocks]. apply Forall_app. split; [exact IH|].
    apply Forall_cons_2; [|apply Forall_nil_2].
    apply call_place_ok in Hrun as (-> & _ & Hcells).
    rewrite (orientation_origin k pb ijk Hk).
    eapply Forall_impl; [exact Hcells|]. by intros c [Hc' _].
Qed.

(** X14.  For a state whose placed blocks lie in the box, as in every state
    that [solve] builds, [plot_solution] draws a line exactly between the
    pairs of cells of one placed block that share a face (they differ by one
    in exactly one coordinate), in the colour of the block's position in the
    placed list; so no line joins cells of different blocks or a cell to
    itself, and every line is drawn in both directions. *)
Theorem plot_solution_lines (game : GameState) (xs ys zs : Z * Z)
    (color : string) :
  placed_in_box game →
  (Plot3D xs ys zs color ∈ plot_solution game
   ↔ ∃ c b, placed_blocks game !! c = Some b
            ∧ color = "C" +:+ pretty c
            ∧ (xs.1, ys.1, zs.1) ∈ abs_cells b
            ∧ (xs.2, ys.2, zs.2) ∈ abs_cells b
            ∧ face_adjacent (xs.1, ys.1, zs.1) (xs.2, ys.2, zs.2))
  ∧ (Plot3D xs ys zs color ∈ plot_solution game
     → Plot3D (xs.2, xs.1) (ys.2, ys.1) (zs.2, zs.1) color
       ∈ plot_solution game).
Proof.
  intros _.
  assert (Hiff : ∀ xs ys zs,
    Plot3D xs ys zs color ∈ plot_solution game
    ↔ ∃ c b, placed_blocks game !! c = Some b
             ∧ color = "C" +:+ pretty c
             ∧ (xs.1, ys.1, zs.1) ∈ abs_cells b
             ∧ (xs.2, ys.2, zs.2) ∈ abs_cells b
             ∧ face_adjacent (xs.1, ys.1, zs.1) (xs.2, ys.2, zs.2)).
  { clear xs ys zs. intros [x1 x2] [y1 y2] [z1 z2]. cbn [fst snd].
    unfold plot_solution.
    rewrite !elem_of_app, list_elem_of_join. split.
    - intros [H|[(cmds & Hcmd & Hcmds)|H]].
      + apply list_elem_of_In in H. cbn in H. naive_solver.
      + apply elem_of_lookup_imap in Hcmds as (c & b & -> & Hb).
        unfold plot_block in Hcmd. cbn zeta in Hcmd.
        apply elem_of_cons in Hcmd as [Hcmd|Hcmd]; [done|].
        apply list_elem_of_fmap in Hcmd as ([c1 c2] & Heq & Hseg).
        destruct c1 as [[a1 b1] d1], c2 as [[a2 b2] d2]. cbn in Heq.
        injection Heq as -> -> -> -> -> -> ->.
        apply elem_of_block_segments in Hseg as (H1 & H2 & H3).
        by exists c, b.
      + apply list_elem_of_singleton in H. done.
    - intros (c & b & Hb & -> & H1 & H2 & H3). right. left.
      exists (plot_block c b). split.
      + unfold plot_block. cbn zeta. apply elem_of_cons. right.
        apply list_elem_of_fmap. exists ((x1, y1, z1), (x2, y2, z2)).
        split; [done|]. by apply elem_of_block_segments.
      + by apply elem_of_lookup_imap_2. }
  split; [apply Hiff|].
  rewrite !Hiff. cbn [fst snd].
  intros (c & b & Hb & -> & H1 & H2 & H3). exists c, b.
  repeat split; try done.
  destruct xs, ys, zs. cbn [fst snd] in *. unfold face_adjacent in *. lia.
Qed.

(** X14 at a concrete input: the solution that [solve] finds for the puzzle
    of the source file, the cells (0,0,0) and (0,0,1), and the colour of the
    block placed first. *)
Lemma plot_solution_lines_witness :
  let game := returned puzzle_outcome in
  let xs := (0, 0) in let ys := (0, 0) in let zs := (0, 1) in
  let color := "C0" in
  (Plot3D xs ys zs color ∈ plot_solution game
   ↔ ∃ c b, placed_blocks game !! c = Some b
            ∧ color = "C" +:+ pretty c
            ∧ (xs.1, ys.1, zs.1) ∈ abs_cells b
            ∧ (xs.2, ys.2, zs.2) ∈ abs_cells b
            ∧ face_adjacent (xs.1, ys.1, zs.1) (xs.2, ys.2, zs.2))
  ∧ (Plot3D xs ys zs color ∈ plot_solution game
     → Plot3D (xs.2, xs.1) (ys.2, ys.1) (zs.2, zs.1) color
       ∈ plot_solution game).
Proof.
  cbn zeta.
  apply (plot_solution_lines (returned puzzle_outcome) (0, 0) (0, 0) (0, 1)
           "C0").
  vm_compute. repeat constructor.
Defined.

(** ** The pieces of a fresh game *)

Lemma piece_name_inj : Inj (=) (=) (λ i : nat, "B" +:+ pretty i).
Proof. intros i j H. injection H as H. by apply (inj pretty). Qed.

(** X15.  A fresh game holds the given shapes, in the given order, as the
    offsets of its candidates; the candidates are named B0, B1, ... by
    position, so that no two of them share a name; each has its origin at
    (0,0,0) and as many cells as offsets; nothing is placed, and no cell of
    the box is filled. *)
Theorem GameState_init_pieces (pieces : list (list Vec3)) :
  let game := GameState_init pieces in
  coords <$> block_candidates game = pieces
  ∧ name <$> block_candidates game
    = (λ i : nat, "B" +:+ pretty i) <$> seq 0 (length pieces)
  ∧ NoDup (name <$> block_candidates game)
  ∧ Forall (λ b, origin b = (0, 0, 0) ∧ coord_len b = length (coords b))
           (block_candidates game)
  ∧ placed_blocks game = []
  ∧ num_filled (box game) = 0.
Proof.
  cbn zeta. unfold GameState_init. cbn [block_candidates placed_blocks box].
  assert (Hn : name <$> imap (λ i b, Block_init b ("B" +:+ pretty i)) pieces
               = (λ i : nat, "B" +:+ pretty i) <$> seq 0 (length pieces)).
  { rewrite fmap_imap. by rewrite <- (imap_seq_0 pieces). }
  split; [|split; [exact Hn|split; [|split;[|done]]]].
  - rewrite fmap_imap. rewrite (imap_ext _ (const id)) by done.
    by rewrite imap_const, list_fmap_id.
  - rewrite Hn.
    apply (@NoDup_fmap_2 _ _ _ piece_name_inj), NoDup_seq.
  - apply Forall_forall. intros b Hb.
    apply elem_of_lookup_imap in Hb as (i & cs & -> & _). done.
Qed.

(** ** Pairwise different orientations *)

Lemma rotation_matrices_closed (Y1 Y2 : Mat3) :
  Y1 ∈ rotation_matrices → Y2 ∈ rotation_matrices →
  mat_mul (transpose Y2) Y1 ∈ rotation_matrices
  ∧ (mat_mul (transpose Y2) Y1 = I3 → Y1 = Y2).
Proof.
  intros H1 H2.
  assert (Hall : forallb (λ A, forallb (λ B,
            existsb (mat_eqb (mat_mul (transpose B) A)) rotation_matrices
            && (negb (mat_eqb (mat_mul (transpose B) A) I3) || mat_eqb A B))
          rotation_matrices) rotation_matrices = true)
    by (vm_compute; reflexivity).
  rewrite forallb_forall in Hall.
  apply list_elem_of_In, Hall in H1. rewrite forallb_forall in H1.
  apply list_elem_of_In, H1 in H2.
  apply andb_true_iff in H2 as [Hin Heq]. split.
  - by apply existsb_mat_eqb.
  - intros HI. apply orb_true_iff in Heq as [Hne|Heq].
    + apply negb_true_iff in Hne. apply mat_eqb_eq in HI. congruence.
    + by apply mat_eqb_eq.
Qed.

Lemma rotation_fixing_plane (Y : Mat3) (u v : Vec3) :
  Y ∈ rotation_matrices →
  matvec Y u = u → matvec Y v = v → cross u v ≠ (0, 0, 0) → Y = I3.
Proof.
  intros HY Hu Hv Hc. destruct_vec u. destruct_vec v.
  unfold rotation_matrices in HY.
  let l := eval vm_compute in (yield_matrices rotations I3) in
  change (yield_matrices rotations I3) with l in HY.
  unfold cross in Hc.
  repeat (apply elem_of_cons in HY as [->|HY];
          [ first [ reflexivity
                  | exfalso; apply Hc; cbn in Hu, Hv;
                    injection Hu as Hu1 Hu2 Hu3; injection Hv as Hv1 Hv2 Hv3;
                    apply vec_eq; nia ] | ]).
  by apply elem_of_nil in HY.
Qed.

Lemma map_eq_at {A B : Type} (f g : A → B) (l : list A) (x : A) :
  map f l = map g l → x ∈ l → f x = g x.
Proof.
  induction l as [|y l IH]; cbn; intros Heq Hx.
  - by apply elem_of_nil in Hx.
  - injection Heq as Hy Hl. apply elem_of_cons in Hx as [->|Hx]; auto.
Qed.

Lemma rotation_matrices_orthogonal (Y : Mat3) :
  Y ∈ rotation_matrices → mat_mul (transpose Y) Y = I3.
Proof.
  intros HY. pose proof rotation_matrices_proper as HP.
  rewrite Forall_forall in HP. by destruct (HP Y HY).
Qed.

(** X18.  When a block, whose offsets are in the range where the 64-bit
    arithmetic is exact, has two offsets that do not lie on one line through
    (0,0,0), the 24 arrays that a run of the generator yields are pairwise
    different. *)
Theorem rotations_yield_distinct (b : Block) (u v : Vec3) :
  Forall exact_int64 (coords b) →
  u ∈ coords b → v ∈ coords b → cross u v ≠ (0, 0, 0) →
  NoDup (gen_all b).2.
Proof.
  intros _ Hu Hv Hc. rewrite gen_all_yields.
  apply NoDup_fmap_2_strong; [|apply rotation_matrices_NoDup].
  intros Y1 Y2 H1 H2 Heq.
  destruct (rotation_matrices_closed Y1 Y2 H1 H2) as [HY Hsame].
  apply Hsame.
  assert (Hfix : ∀ w, w ∈ coords b →
            matvec (mat_mul (transpose Y2) Y1) w = w).
  { intros w Hw. rewrite matvec_mat_mul.
    rewrite (map_eq_at _ _ _ w Heq Hw).
    rewrite <- matvec_mat_mul, (rotation_matrices_orthogonal _ H2).
    apply matvec_I3. }
  by apply (rotation_fixing_plane _ u v HY (Hfix u Hu) (Hfix v Hv)).
Qed.

(** X18 at a concrete input: piece [B1] with its offsets (1,0,0) and
    (2,1,0). *)
Lemma rotations_yield_distinct_witness :
  NoDup (gen_all (Block_init B1 "B1")).2.
Proof.
  apply (rotations_yield_distinct (Block_init B1 "B1") (1, 0, 0) (2, 1, 0)).
  - repeat (apply Forall_cons_2; [unfold exact_int64; lia|]).
    apply Forall_nil_2.
  - right. left.
  - do 3 right. left.
  - discriminate.
Defined.
